(** * Vector space search over an in-memory inverted index

    A shallow embedding of the [IrIndex] class of
    [apps/information-retrieval/Vector Space.ipynb] (Python 2): the
    tokenizer [pattern.split], [index_document], [create_tf_dictionary],
    [create_tfidf_list] and [vector_space_search], followed by the
    properties of the index and of the scorer.

    Modelling choices.
    - Python [str] is a byte string: [string] of the Standard Library.
    - [self.index] and the document vectors are only ever looked up, never
      iterated: they are finite maps ([gmap]).  The query dictionary and
      the [hits] dictionary are iterated, so they are association lists
      that keep their keys in insertion order.  CPython 2 iterates a dict
      in hash-table order; that order is an artefact the results do not
      depend on, beyond being the same for every traversal of one
      unmodified dict.
    - Python floats are idealised as real numbers: [log] is [ln].
    - The exceptions a search could raise are explicit ([result]). *)

From Stdlib Require Import Ascii Reals Lra.
From stdpp Require Import gmap strings list fin_maps sorting.

Local Open Scope string_scope.
Local Open Scope list_scope.
Local Open Scope nat_scope.

(** ** Exceptions *)

Inductive exn : Type :=
| KeyError            (* d[k] on a missing key *)
| IndexError          (* l[i] out of range *)
| ZeroDivisionError   (* float division by 0.0 *)
| ValueError.         (* math.log of 0.0, numpy.dot on unequal lengths *)

Inductive result (A : Type) : Type :=
| Ok (a : A)
| Raise (e : exn).
Arguments Ok {A} a.
Arguments Raise {A} e.

#[global] Instance result_ret : MRet result := λ A a, Ok a.

#[global] Instance result_bind : MBind result := λ A B k r,
  match r with
  | Ok a => k a
  | Raise e => Raise e
  end.

(** A [for] loop whose body may raise. *)
Fixpoint for_each {A S} (body : S → A → result S) (l : list A) (s : S)
  : result S :=
  match l with
  | [] => Ok s
  | a :: l' => s' ← body s a; for_each body l' s'
  end.

Definition of_option {A} (e : exn) (o : option A) : result A :=
  match o with
  | Some a => Ok a
  | None => Raise e
  end.

(** ** The tokenizer: [re.compile("^\s+|\s*,*\s*|\s+$").split] *)

Module Tokenizer.

(** [\s] on a byte string without flags: tab, newline, vertical tab,
    form feed, carriage return and space. *)
Definition is_space (c : ascii) : bool :=
  let n := nat_of_ascii c in
  ((9 <=? n)%nat && (n <=? 13)%nat) || (n =? 32)%nat.

Definition is_comma (c : ascii) : bool :=
  (nat_of_ascii c =? 44)%nat.

Fixpoint skip_while (p : ascii → bool) (s : string) : string :=
  match s with
  | String c s' => if p c then skip_while p s' else s
  | EmptyString => s
  end.

(** What is left of [s] after the pattern has matched at its head.  The
    alternatives are tried in order: [^\s+] needs the beginning of the
    input and one space; [\s*,*\s*] always matches, possibly the empty
    string, so [\s+$] is never tried. *)
Definition after_match (at_begin : bool) (s : string) : string :=
  match s with
  | String c _ =>
      if at_begin && is_space c then skip_while is_space s
      else skip_while is_space (skip_while is_comma (skip_while is_space s))
  | EmptyString => s
  end.

(** The loop of [pattern_split] in [_sre.c] (Python 2.7): a non-empty
    match closes the current token and the search resumes after it; an
    empty match is skipped by moving one character on, and ends the loop
    at the end of the input.  [tok] is the text since the last
    separator. *)
Fixpoint split_from (fuel : nat) (at_begin : bool) (tok s : string)
  : list string :=
  match fuel with
  | 0 => [tok +:+ s]
  | S fuel' =>
      let rest := after_match at_begin s in
      if (String.length rest <? String.length s)%nat
      then tok :: split_from fuel' false "" rest
      else match s with
           | EmptyString => [tok]
           | String c s' => split_from fuel' false (tok +:+ String c "") s'
           end
  end.

Definition split (s : string) : list string :=
  split_from (S (String.length s)) true "" s.

End Tokenizer.

(** ** [str.count]: non-overlapping occurrences of [sub] *)

Fixpoint count_from (sub : string) (skip : nat) (s : string) : nat :=
  match s with
  | EmptyString => 0
  | String _ s' =>
      match skip with
      | S k => count_from sub k s'
      | 0 => if String.prefix sub s
             then S (count_from sub (String.length sub - 1) s')
             else count_from sub 0 s'
      end
  end.

Definition str_count (s sub : string) : nat :=
  match sub with
  | EmptyString => S (String.length s)
  | _ => count_from sub 0 s
  end.

(** ** The index *)

(** The three collections of [IrIndex.__init__]: the postings of every
    term, the documents in the order they were indexed, and one
    term-frequency vector per document. *)
Record IrIndex : Type := mkIrIndex {
  index : gmap string (list nat);
  documents : list string;
  vectors : list (gmap string nat)
}.

Definition init : IrIndex := mkIrIndex ∅ [] [].

(** What a method hands back to its caller. *)
Inductive retval : Type :=
| PyNone
| PyInt (n : nat).

(** The body of the loop [for term in terms] of [index_document]: the
    posting is appended for every occurrence of the term. *)
Definition index_term (document_pos : nat)
    (st : gmap string (list nat) * gmap string nat) (term : string)
  : gmap string (list nat) * gmap string nat :=
  let '(idx, vector) := st in
  let idx :=
    match idx !! term with
    | None => <[term := []]> idx
    | Some _ => idx
    end in
  let idx := <[term := default [] (idx !! term) ++ [document_pos]]> idx in
  let vector :=
    match vector !! term with
    | None => <[term := 1]> vector
    | Some n => <[term := n + 1]> vector
    end in
  (idx, vector).

(** [index_document] has no [return] statement: the caller gets [None]. *)
Definition index_document (self : IrIndex) (document : string)
  : IrIndex * retval :=
  let terms := Tokenizer.split document in
  let documents' := documents self ++ [document] in
  let document_pos := length documents' - 1 in
  let '(idx, vector) :=
    foldl (index_term document_pos) (index self, ∅) terms in
  (mkIrIndex idx documents' (vectors self ++ [vector]), PyNone).

(** The index after indexing [docs] in order, from a fresh [IrIndex()]. *)
Definition index_all (docs : list string) : IrIndex :=
  foldl (λ self document, (index_document self document).1) init docs.

(** ** Scoring *)

(** An iterated dictionary: its items in insertion order, keys distinct. *)
Definition dict_mem {K V} `{EqDecision K} (k : K) (d : list (K * V)) : bool :=
  bool_decide (k ∈ d.*1).

Definition create_tf_dictionary (terms : string) : list (string * nat) :=
  foldl (λ res term,
           if dict_mem term res then res
           else res ++ [(term, str_count terms term)])
        [] (Tokenizer.split terms).

(** [log(float(N) / float(df))]: the division raises on [df = 0], and
    [log] raises on the quotient [0.0]. *)
Definition idf (N df : nat) : result R :=
  if (df =? 0)%nat then Raise ZeroDivisionError
  else if (N =? 0)%nat then Raise ValueError
  else Ok (ln (INR N / INR df)).

(** [create_tfidf_list(self, *args)]: [args[0]] is the query dictionary,
    and [vector], when present, is [args[1]]. *)
Definition create_tfidf_list (self : IrIndex) (tf : list (string * nat))
    (vector : option (gmap string nat)) : result (list R) :=
  match vector with
  | None => Ok (INR <$> tf.*2)
  | Some vector =>
      for_each (λ res term,
                  match vector !! term with
                  | Some n =>
                      postings ← of_option KeyError (index self !! term);
                      w ← idf (length (documents self)) (length postings);
                      Ok (res ++ [(INR n * w)%R])
                  | None => Ok (res ++ [0%R])
                  end)
               tf.*1 []
  end.

(** [numpy.dot] of two one-dimensional arrays. *)
Fixpoint dot (xs ys : list R) : result R :=
  match xs, ys with
  | [], [] => Ok 0%R
  | x :: xs', y :: ys' => s ← dot xs' ys'; Ok (x * y + s)%R
  | _, _ => Raise ValueError
  end.

(** The body of the loop [for post in self.index[term]]: a document that
    is already a key of [hits] is skipped. *)
Definition visit (self : IrIndex) (terms_tf_dictionary : list (string * nat))
    (hits : list (nat * list R)) (post : nat)
  : result (list (nat * list R)) :=
  if dict_mem post hits then Ok hits
  else
    vector ← of_option IndexError (vectors self !! post);
    tfidf_list ← create_tfidf_list self terms_tf_dictionary (Some vector);
    Ok (hits ++ [(post, tfidf_list)]).

Definition vector_space_search (self : IrIndex) (terms : string)
  : result (list (R * string)) :=
  let terms_tf_dictionary := create_tf_dictionary terms in
  terms_tfidf_list ← create_tfidf_list self terms_tf_dictionary None;
  let hitting_terms :=
    filter (λ term, is_Some (index self !! term)) (Tokenizer.split terms) in
  hits ←
    for_each (λ hits term,
      postings ← of_option KeyError (index self !! term);
      for_each (visit self terms_tf_dictionary) postings hits)
      hitting_terms [];
  for_each (λ res hit,
    score ← dot terms_tfidf_list hit.2;
    document ← of_option IndexError (documents self !! hit.1);
    Ok (res ++ [(score, document)]))
    hits [].

(** The corpus of the notebook's examples. *)
Definition wines : list string :=
  [ "Bruno Clair Chambertin Clos de Beze 2001, Bourgogne, France";
    "Bruno Clair Chambertin Clos de Beze 2005, Bourgogne, France";
    "Bruno Clair Clos Saint Jaques 2001, Bourgogne, France";
    "Bruno Clair Clos Saint Jaques 2002, Bourgogne, France";
    "Bruno Clair Clos Saint Jaques 2005, Bourgogne, France";
    "Coche-Dury Bourgogne Chardonay 2005, Bourgogne, France";
    "Chateau Margaux 1982, Bordeaux, France";
    "Chateau Margaux 1996, Bordeaux, France";
    "Chateau Latour 1982, Bordeaux, France";
    "Domaine Raveneau Le Clos 2001, Bourgogne, France" ].

(** ** Observations on an index *)

(** The posting list of a term; empty for a term that is not a key. *)
Definition postings (self : IrIndex) (t : string) : list nat :=
  default [] (index self !! t).

(** The count of term [t] in the vector of document [d]; [0] where the
    vector has no entry, or there is no such document. *)
Definition tf (self : IrIndex) (d : nat) (t : string) : nat :=
  default 0 (vectors self !! d ≫= (.!! t)).

(** How often a token occurs in a token sequence. *)
Definition occ (t : string) (terms : list string) : nat :=
  length (filter (λ u, u = t) terms).

(** The postings of [t] over a corpus: each document position, once for
    every occurrence of [t] among the tokens of that document. *)
Definition all_postings (t : string) (docs : list string) : list nat :=
  concat (imap (λ d doc, replicate (occ t (Tokenizer.split doc)) d) docs).

(** The keys of [hits] after the posts [l] have gone through the loop:
    a post already present is skipped. *)
Definition add_new (ks : list nat) (p : nat) : list nat :=
  if bool_decide (p ∈ ks) then ks else ks ++ [p].

Definition candidates (self : IrIndex) (terms : list string) : list nat :=
  foldl add_new []
    (filter (λ term, is_Some (index self !! term)) terms ≫= postings self).

(** The tf-idf weight of term [t] in document [d], in the dimension of a
    query term: zero when [d] has no entry for [t]. *)
Definition doc_weight (self : IrIndex) (d : nat) (t : string) : R :=
  match vectors self !! d ≫= (.!! t) with
  | Some n =>
      (INR n * ln (INR (length (documents self))
                   / INR (length (postings self t))))%R
  | None => 0%R
  end.

(** The sum, over the query's terms, of the raw query frequency times the
    document's tf-idf weight. *)
Definition score (self : IrIndex) (q : list (string * nat)) (d : nat) : R :=
  foldr (λ '(t, n) s, (INR n * doc_weight self d t + s)%R) 0%R q.

(** The entry of a term after [n] more occurrences were counted. *)
Definition bump_postings (pos n : nat) (o : option (list nat))
  : option (list nat) :=
  match n with
  | 0 => o
  | _ => Some (default [] o ++ replicate n pos)
  end.

Definition bump_count (n : nat) (o : option nat) : option nat :=
  match n with
  | 0 => o
  | _ => Some (default 0 o + n)
  end.

Definition entry (l : list nat) : option (list nat) :=
  match l with
  | [] => None
  | _ => Some l
  end.

(** The [hits] dictionary built from the keys [ks]. *)
Definition hits_of (self : IrIndex) (q : list (string * nat))
    (ks : list nat) : list (nat * list R) :=
  (λ p, (p, doc_weight self p <$> q.*1)) <$> ks.

(** The query vector and the score as the specification words them: the
    query weight carries the idf of the term. *)
Definition spec_query_tfidf (self : IrIndex) (q : list (string * nat))
  : list R :=
  (λ '(t, n),
     match index self !! t with
     | Some l => (INR n * ln (INR (length (documents self))
                              / INR (length l)))%R
     | None => 0%R
     end) <$> q.

Definition spec_score (self : IrIndex) (q : list (string * nat)) (d : nat)
  : R :=
  foldr (λ x s, (x + s)%R) 0%R
    (zip_with Rmult (spec_query_tfidf self q) (doc_weight self d <$> q.*1)).

(** Fixed-point arithmetic with 18 decimals, for bracketing a logarithm
    by repeated squaring: [x] stands for [x / scale]. *)
Definition scale : Z := 1000000000000000000.

Definition seed_below : Z := 1000001148198600315.

Definition seed_above : Z := 1000001148198600317.

Definition square_down (x : Z) : Z := (x * x) `div` scale.

Definition square_up (x : Z) : Z := (x * x + scale - 1) `div` scale.

Definition fixed (x : Z) : R := (IZR x / IZR scale)%R.

(** ** Words and separators *)

(** A separator character of the pattern: white space or a comma. *)
Definition is_sep (c : ascii) : bool :=
  Tokenizer.is_space c || Tokenizer.is_comma c.

Fixpoint all_chars (p : ascii → bool) (s : string) : bool :=
  match s with
  | EmptyString => true
  | String c s' => p c && all_chars p s'
  end.

(** A string without white space and without commas. *)
Definition clean (s : string) : bool :=
  all_chars (λ c, negb (is_sep c)) s.

(** A non-empty string that [\s*,*\s*] matches as a whole. *)
Definition separator (sep : string) : Prop :=
  sep ≠ ""
  ∧ Tokenizer.skip_while Tokenizer.is_space
      (Tokenizer.skip_while Tokenizer.is_comma
         (Tokenizer.skip_while Tokenizer.is_space sep)) = "".

(** [t] occurs in [s]. *)
Definition substring_of (t s : string) : Prop :=
  ∃ pre post, s = pre +:+ t +:+ post.

(** The positions of the documents that satisfy [P], in order. *)
Definition marks (P : string → Prop) `{∀ doc, Decision (P doc)}
    (docs : list string) : list nat :=
  concat (imap (λ d doc, if decide (P doc) then [d] else []) docs).

(** The weight that [create_tfidf_list] gives term [t] for the vector
    [v]. *)
Definition vector_weight (self : IrIndex) (v : gmap string nat)
    (t : string) : R :=
  match v !! t with
  | Some n =>
      (INR n * ln (INR (length (documents self))
                   / INR (length (postings self t))))%R
  | None => 0%R
  end.

(** * Properties *)

Lemma result_bind_Ok {A B} (a : A) (k : A → result B) : Ok a ≫= k = k a.
Proof. done. Qed.

(** ** Loops *)

Section Loops.
Context {A S : Type}.

(** A loop that appends one computed item per element. *)
Lemma for_each_collect {B} (body : list B → A → result (list B))
    (g : A → B) l acc :
  (∀ res a, a ∈ l → body res a = Ok (res ++ [g a])) →
  for_each body l acc = Ok (acc ++ (g <$> l)).
Proof.
  revert acc. induction l as [|a l IH]; intros acc Hb; simpl.
  - by rewrite app_nil_r.
  - rewrite Hb by left. simpl. rewrite IH.
    + by rewrite <- app_assoc.
    + intros res b Hin. apply Hb. by right.
Qed.

End Loops.

(** ** Indexing one document *)

Lemma occ_cons t a terms :
  occ t (a :: terms) = (if decide (a = t) then 1 else 0) + occ t terms.
Proof. unfold occ. rewrite filter_cons. by destruct (decide (a = t)). Qed.

Lemma occ_pos t terms : occ t terms ≠ 0 ↔ t ∈ terms.
Proof.
  induction terms as [|a terms IH]; [by rewrite elem_of_nil|].
  rewrite occ_cons, elem_of_cons. destruct (decide (a = t)) as [->|]; simpl.
  - split; [by left | lia].
  - rewrite IH. split; [by right | by intros [->|]].
Qed.

Lemma index_term_lookup pos idx vec a t :
  (index_term pos (idx, vec) a).1 !! t
    = bump_postings pos (if decide (a = t) then 1 else 0) (idx !! t)
  ∧ (index_term pos (idx, vec) a).2 !! t
    = bump_count (if decide (a = t) then 1 else 0) (vec !! t).
Proof.
  unfold index_term. simpl. destruct (decide (a = t)) as [->|Hne]; simpl.
  - rewrite !lookup_insert_eq. split.
    + by destruct (idx !! t) eqn:E; rewrite ?E, ?lookup_insert_eq.
    + destruct (vec !! t) eqn:E; by rewrite ?lookup_insert_eq.
  - split.
    + rewrite lookup_insert_ne by done.
      destruct (idx !! a); [done | by rewrite lookup_insert_ne].
    + destruct (vec !! a); by rewrite lookup_insert_ne.
Qed.

Lemma index_terms_lookup pos terms idx vec t :
  (foldl (index_term pos) (idx, vec) terms).1 !! t
    = bump_postings pos (occ t terms) (idx !! t)
  ∧ (foldl (index_term pos) (idx, vec) terms).2 !! t
    = bump_count (occ t terms) (vec !! t).
Proof.
  revert idx vec. induction terms as [|a terms IH]; intros idx vec; [done|].
  change (foldl (index_term pos) (idx, vec) (a :: terms))
    with (foldl (index_term pos) (index_term pos (idx, vec) a) terms).
  destruct (index_term pos (idx, vec) a) as [idx1 vec1] eqn:E.
  destruct (IH idx1 vec1) as [IH1 IH2]. rewrite IH1, IH2.
  destruct (index_term_lookup pos idx vec a t) as [H1 H2].
  rewrite E in H1, H2. simpl in H1, H2. rewrite H1, H2, occ_cons.
  destruct (decide (a = t)); simpl; [|done].
  destruct (occ t terms) as [|n]; simpl; [done|]. split.
  - by rewrite <- app_assoc.
  - f_equal. lia.
Qed.

Lemma index_document_documents self doc :
  documents (index_document self doc).1 = documents self ++ [doc].
Proof.
  unfold index_document.
  by destruct (foldl _ _ _) as [idx vector].
Qed.

Lemma index_document_vectors self doc :
  ∃ v, vectors (index_document self doc).1 = vectors self ++ [v]
       ∧ ∀ t, v !! t = bump_count (occ t (Tokenizer.split doc)) None.
Proof.
  unfold index_document.
  destruct (foldl _ _ _) as [idx vector] eqn:E. exists vector.
  split; [done|]. intros t.
  pose proof (index_terms_lookup (length (documents self ++ [doc]) - 1)
                (Tokenizer.split doc) (index self) ∅ t) as [_ H].
  rewrite E in H. simpl in H. by rewrite H, lookup_empty.
Qed.

Lemma index_document_index self doc t :
  index (index_document self doc).1 !! t
  = bump_postings (length (documents self)) (occ t (Tokenizer.split doc))
      (index self !! t).
Proof.
  unfold index_document.
  destruct (foldl _ _ _) as [idx vector] eqn:E.
  pose proof (index_terms_lookup (length (documents self ++ [doc]) - 1)
                (Tokenizer.split doc) (index self) ∅ t) as [H _].
  rewrite E in H. simpl in H. simpl. rewrite H.
  rewrite length_app. simpl. by replace (length (documents self) + 1 - 1)
    with (length (documents self)) by lia.
Qed.

(** ** The index of a corpus *)

Lemma index_all_snoc docs doc :
  index_all (docs ++ [doc]) = (index_document (index_all docs) doc).1.
Proof. unfold index_all. by rewrite foldl_app. Qed.

Lemma all_postings_snoc t docs doc :
  all_postings t (docs ++ [doc])
  = all_postings t docs
    ++ replicate (occ t (Tokenizer.split doc)) (length docs).
Proof.
  unfold all_postings. rewrite imap_app, concat_app. simpl.
  by rewrite app_nil_r, Nat.add_0_r.
Qed.

Lemma index_all_documents docs : documents (index_all docs) = docs.
Proof.
  induction docs as [|doc docs IH] using rev_ind; [done|].
  by rewrite index_all_snoc, index_document_documents, IH.
Qed.

Lemma index_all_vectors_length docs :
  length (vectors (index_all docs)) = length docs.
Proof.
  induction docs as [|doc docs IH] using rev_ind; [done|].
  rewrite index_all_snoc.
  destruct (index_document_vectors (index_all docs) doc) as (v & -> & _).
  rewrite !length_app, IH. done.
Qed.

Lemma index_all_vectors docs d t :
  vectors (index_all docs) !! d ≫= (.!! t)
  = docs !! d ≫= λ doc, bump_count (occ t (Tokenizer.split doc)) None.
Proof.
  induction docs as [|doc docs IH] using rev_ind; [done|].
  rewrite index_all_snoc.
  destruct (index_document_vectors (index_all docs) doc) as (v & -> & Hv).
  pose proof (index_all_vectors_length docs) as Hlen.
  destruct (decide (d < length docs)) as [Hlt|Hge].
  - rewrite !lookup_app_l by lia. apply IH.
  - rewrite !lookup_app_r by lia. rewrite Hlen.
    destruct (d - length docs) as [|k]; simpl; [apply Hv | done].
Qed.

Lemma index_all_index docs t :
  index (index_all docs) !! t = entry (all_postings t docs).
Proof.
  induction docs as [|doc docs IH] using rev_ind; [done|].
  rewrite index_all_snoc, index_document_index, IH, index_all_documents.
  rewrite all_postings_snoc.
  destruct (occ t (Tokenizer.split doc)) as [|n]; simpl.
  - by rewrite app_nil_r.
  - destruct (all_postings t docs) as [|p l]; simpl; [done|].
    by destruct l.
Qed.

Lemma postings_index_all docs t :
  postings (index_all docs) t = all_postings t docs.
Proof.
  unfold postings. rewrite index_all_index.
  by destruct (all_postings t docs).
Qed.

Lemma elem_of_all_postings t docs d :
  d ∈ all_postings t docs
  ↔ ∃ doc, docs !! d = Some doc ∧ occ t (Tokenizer.split doc) ≠ 0.
Proof.
  induction docs as [|doc docs IH] using rev_ind.
  - unfold all_postings. simpl. rewrite elem_of_nil.
    split; [done | by intros (doc & Hd & _)].
  - rewrite all_postings_snoc, elem_of_app, IH, elem_of_replicate. split.
    + intros [(doc' & Hd & Ho) | [-> Ho]].
      * exists doc'. split; [|done]. by apply lookup_app_l_Some.
      * exists doc. split; [|done]. by rewrite list_lookup_middle.
    + intros (doc' & Hd & Ho).
      apply lookup_snoc_Some in Hd as [[Hlt Hd] | [-> ->]]; eauto.
Qed.

Lemma tf_index_all docs d t :
  tf (index_all docs) d t
  = default 0 (docs !! d ≫= λ doc, Some (occ t (Tokenizer.split doc))).
Proof.
  unfold tf. rewrite index_all_vectors.
  destruct (docs !! d) as [doc|]; simpl; [|done].
  by destruct (occ t (Tokenizer.split doc)).
Qed.

(** Every entry of a stored vector is backed by a posting, and every
    posting points at a stored document. *)
Lemma vector_entry_indexed docs d v t n :
  vectors (index_all docs) !! d = Some v → v !! t = Some n →
  n ≠ 0 ∧ docs ≠ [] ∧
  ∃ l, index (index_all docs) !! t = Some l ∧ l ≠ [] ∧ d ∈ l.
Proof.
  intros Hv Hn.
  pose proof (index_all_vectors docs d t) as H.
  rewrite Hv in H. simpl in H. rewrite Hn in H.
  destruct (docs !! d) as [doc|] eqn:Hd; simpl in H; [|done].
  assert (occ t (Tokenizer.split doc) ≠ 0) as Ho.
  { intros E. by rewrite E in H. }
  assert (d ∈ all_postings t docs) as Hin.
  { apply elem_of_all_postings. eauto. }
  split; [|split].
  - destruct (occ t (Tokenizer.split doc)); [done|].
    simpl in H. injection H as ->. lia.
  - by intros ->.
  - exists (all_postings t docs). rewrite index_all_index.
    destruct (all_postings t docs) as [|p l]; [by apply elem_of_nil in Hin|].
    done.
Qed.

Lemma posting_valid docs t l p :
  index (index_all docs) !! t = Some l → p ∈ l → p < length docs.
Proof.
  rewrite index_all_index. intros Hl Hp.
  assert (l = all_postings t docs) as ->.
  { destruct (all_postings t docs); simpl in Hl; congruence. }
  apply elem_of_all_postings in Hp as (doc & Hd & _).
  by eapply lookup_lt_Some.
Qed.

(** ** The scorer on the index of a corpus *)

Lemma create_tfidf_list_doc docs q d v :
  vectors (index_all docs) !! d = Some v →
  create_tfidf_list (index_all docs) q (Some v)
  = Ok (doc_weight (index_all docs) d <$> q.*1).
Proof.
  intros Hv. unfold create_tfidf_list.
  rewrite (for_each_collect _ (doc_weight (index_all docs) d)); [done|].
  intros res t _. unfold doc_weight. rewrite Hv. simpl.
  destruct (v !! t) as [n|] eqn:Hn; [|done].
  destruct (vector_entry_indexed docs d v t n Hv Hn)
    as (_ & Hdocs & l & Hl & Hne & _).
  unfold postings. rewrite Hl. simpl. unfold idf.
  rewrite index_all_documents.
  destruct l; [done|]. destruct docs; [done|]. done.
Qed.

Lemma dot_score self q d :
  dot (INR <$> q.*2) (doc_weight self d <$> q.*1) = Ok (score self q d).
Proof.
  induction q as [|[t n] q IH]; [done|].
  rewrite !fmap_cons. cbn [dot]. by rewrite IH.
Qed.

Lemma hits_of_keys self q ks : (hits_of self q ks).*1 = ks.
Proof.
  unfold hits_of. induction ks as [|k ks IH]; [done|].
  rewrite !fmap_cons. by rewrite IH.
Qed.

Lemma elem_of_add_new ks l p :
  p ∈ foldl add_new ks l ↔ p ∈ ks ∨ p ∈ l.
Proof.
  revert ks. induction l as [|a l IH]; intros ks; simpl.
  - rewrite elem_of_nil. tauto.
  - rewrite IH, elem_of_cons. unfold add_new.
    case_bool_decide as Ha.
    + split; [tauto|]. intros [?|[->|?]]; tauto.
    + rewrite elem_of_app, list_elem_of_singleton. tauto.
Qed.

Lemma NoDup_add_new ks l : NoDup ks → NoDup (foldl add_new ks l).
Proof.
  revert ks. induction l as [|a l IH]; intros ks Hks; [done|].
  simpl. apply IH. unfold add_new. case_bool_decide as Ha; [done|].
  apply NoDup_app. split; [done|]. split; [|apply NoDup_singleton].
  intros x Hx ->%list_elem_of_singleton. done.
Qed.

Lemma add_new_fresh ks l :
  NoDup (ks ++ l) → foldl add_new ks l = ks ++ l.
Proof.
  revert ks. induction l as [|a l IH]; intros ks Hnd; simpl.
  - by rewrite app_nil_r.
  - unfold add_new at 2. case_bool_decide as Ha.
    + apply NoDup_app in Hnd as (_ & Hd & _).
      exfalso. apply (Hd a Ha). by left.
    + rewrite IH; rewrite <- app_assoc; done.
Qed.

Section Hits.
Variable docs : list string.
Variable q : list (string * nat).
Let self := index_all docs.

Lemma visit_posts posts ks :
  (∀ p, p ∈ posts → p < length docs) →
  for_each (visit self q) posts (hits_of self q ks)
  = Ok (hits_of self q (foldl add_new ks posts)).
Proof.
  revert ks. induction posts as [|p posts IH]; intros ks Hv; [done|].
  simpl. assert (visit self q (hits_of self q ks) p
                 = Ok (hits_of self q (add_new ks p))) as ->.
  { unfold visit, dict_mem, add_new. rewrite hits_of_keys.
    case_bool_decide; [done|].
    destruct (lookup_lt_is_Some_2 (vectors self) p) as [v Hp].
    { subst self. rewrite index_all_vectors_length. apply Hv. by left. }
    rewrite Hp. unfold of_option. subst self.
    rewrite result_bind_Ok, (create_tfidf_list_doc docs q p v Hp).
    rewrite result_bind_Ok. unfold hits_of. by rewrite fmap_app. }
  simpl. apply IH. intros p' Hp'. apply Hv. by right.
Qed.

Lemma visit_terms terms ks :
  (∀ t, t ∈ terms → is_Some (index self !! t)) →
  for_each (λ hits term,
      postings ← of_option KeyError (index self !! term);
      for_each (visit self q) postings hits)
    terms (hits_of self q ks)
  = Ok (hits_of self q (foldl add_new ks (terms ≫= postings self))).
Proof.
  revert ks. induction terms as [|t terms IH]; intros ks Hin; [done|].
  simpl. destruct (Hin t) as [l Hl]; [by left|].
  rewrite Hl. simpl. rewrite visit_posts.
  - simpl. rewrite IH.
    + rewrite foldl_app. unfold postings at 2. by rewrite Hl.
    + intros t' Ht'. apply Hin. by right.
  - intros p Hp. by eapply posting_valid.
Qed.
End Hits.

Lemma candidates_valid docs terms p :
  p ∈ candidates (index_all docs) terms → p < length docs.
Proof.
  unfold candidates. rewrite elem_of_add_new, elem_of_nil.
  intros [[]|Hp]. apply list_elem_of_bind in Hp as (t & Hp & Ht).
  apply list_elem_of_filter in Ht as [[l Hl] _].
  unfold postings in Hp. rewrite Hl in Hp. by eapply posting_valid.
Qed.

Lemma vector_space_search_index_all docs terms :
  vector_space_search (index_all docs) terms
  = Ok ((λ p, (score (index_all docs) (create_tf_dictionary terms) p,
               default "" (docs !! p)))
        <$> candidates (index_all docs) (Tokenizer.split terms)).
Proof.
  unfold vector_space_search. simpl.
  pose proof (visit_terms docs (create_tf_dictionary terms)
    (filter (λ term, is_Some (index (index_all docs) !! term))
            (Tokenizer.split terms)) []) as H.
  unfold hits_of at 1 in H. simpl in H. rewrite H; clear H.
  2:{ intros t Ht. by apply list_elem_of_filter in Ht as [? _]. }
  simpl. fold (candidates (index_all docs) (Tokenizer.split terms)).
  rewrite (for_each_collect _
    (λ hit, (score (index_all docs) (create_tf_dictionary terms) hit.1,
             default "" (docs !! hit.1)))).
  - simpl. unfold hits_of. by rewrite <- list_fmap_compose.
  - intros res hit Hhit. unfold hits_of in Hhit.
    apply list_elem_of_fmap in Hhit as (p & -> & Hp). simpl.
    rewrite dot_score. simpl. rewrite index_all_documents.
    apply candidates_valid in Hp.
    destruct (lookup_lt_is_Some_2 docs p Hp) as [doc ->]. done.
Qed.

(** ** The tokenizer never runs out of fuel *)

Lemma skip_while_length p s :
  String.length (Tokenizer.skip_while p s) ≤ String.length s.
Proof.
  induction s as [|c s IH]; simpl; [done|].
  destruct (p c); simpl; lia.
Qed.

Lemma split_from_fuel fuel1 fuel2 b tok s :
  String.length s < fuel1 → String.length s < fuel2 →
  Tokenizer.split_from fuel1 b tok s = Tokenizer.split_from fuel2 b tok s.
Proof.
  revert fuel2 b tok s.
  induction fuel1 as [|fuel1 IH]; intros fuel2 b tok s H1 H2; [lia|].
  destruct fuel2 as [|fuel2]; [lia|]. simpl.
  destruct (Nat.ltb_spec
              (String.length (Tokenizer.after_match b s)) (String.length s)).
  - f_equal. apply IH; lia.
  - destruct s as [|c s]; [done|]. simpl in H1, H2. apply IH; lia.
Qed.

(** ** Indexing: identifiers, postings and vectors *)

(** C2 (what the code does): the identifier of a document is appended to
    the posting list of a term once for every occurrence of the term, so
    the document [Coche-Dury Bourgogne Chardonay 2005, Bourgogne, France],
    indexed first, is listed twice under [Bourgogne]; in the notebook's
    corpus it is document 5, and [Bourgogne] has eight postings for seven
    documents. *)
Theorem C2_posting_appended_per_occurrence :
  index (index_document init
           "Coche-Dury Bourgogne Chardonay 2005, Bourgogne, France").1
    !! "Bourgogne" = Some [0; 0]
  ∧ index (index_all wines) !! "Bourgogne" = Some [0; 1; 2; 3; 4; 5; 5; 9].
Proof. split; vm_compute; reflexivity. Qed.

(** C3 (what the code does): the query dictionary counts the substrings of
    the raw query text, not the tokens: in [Saint Saint-Emilion] the token
    [Saint] occurs once, and its entry is 2. *)
Theorem C3_query_frequency_counts_substrings :
  Tokenizer.split "Saint Saint-Emilion" = ["Saint"; "Saint-Emilion"]
  ∧ occ "Saint" (Tokenizer.split "Saint Saint-Emilion") = 1
  ∧ create_tf_dictionary "Saint Saint-Emilion"
    = [("Saint", 2); ("Saint-Emilion", 1)].
Proof. vm_compute. auto. Qed.

(** C5 as stated fails: the first document indexed is not handed its
    identifier 0; the call returns [None]. *)
Lemma C5_return_value_counterexample :
  (index_document init "Chateau Margaux 1982, Bordeaux, France").2 ≠ PyInt 0.
Proof. vm_compute. discriminate. Qed.

(** C5, amended: [index_document] returns [None]; the document is stored
    at the position equal to the number of documents indexed before the
    call, and that position is what the call appends to the posting list
    of each of the document's terms. *)
Theorem C5_document_stored_at_next_position self document :
  let self' := (index_document self document).1 in
  (index_document self document).2 = PyNone
  ∧ documents self' = documents self ++ [document]
  ∧ documents self' !! length (documents self) = Some document
  ∧ ∀ t, postings self' t
         = postings self t
           ++ replicate (occ t (Tokenizer.split document))
                (length (documents self)).
Proof.
  simpl. split; [|split; [|split]].
  - unfold index_document. by destruct (foldl _ _ _).
  - apply index_document_documents.
  - rewrite index_document_documents. by rewrite list_lookup_middle.
  - intros t. unfold postings. rewrite index_document_index.
    destruct (occ t (Tokenizer.split document)); simpl; [|done].
    by rewrite app_nil_r.
Qed.

(** C6: after any sequence of [index_document] calls, a term has a nonzero
    count in the vector of a document exactly when the identifier of the
    document is in the posting list of the term. *)
Theorem C6_vector_postings_consistent docs d t :
  tf (index_all docs) d t ≠ 0 ↔ d ∈ postings (index_all docs) t.
Proof.
  rewrite tf_index_all, postings_index_all, elem_of_all_postings.
  destruct (docs !! d) as [doc|]; simpl.
  - split; [eauto|]. by intros (doc' & [= <-] & Ho).
  - split; [done|]. by intros (doc' & [=] & _).
Qed.

(** ** Searching *)

Lemma no_hitting_terms (self : IrIndex) terms :
  (∀ t, t ∈ terms → index self !! t = None) →
  filter (λ term, is_Some (index self !! term)) terms = [].
Proof.
  induction terms as [|a terms IH]; intros Hn; [done|].
  rewrite filter_cons. destruct (decide _) as [[l Hl]|_].
  - rewrite (Hn a) in Hl; [done | by left].
  - apply IH. intros t Ht. apply Hn. by right.
Qed.

Lemma search_without_hits self terms :
  (∀ t, t ∈ Tokenizer.split terms → index self !! t = None) →
  vector_space_search self terms = Ok [].
Proof.
  intros Hn. unfold vector_space_search. simpl.
  by rewrite (no_hitting_terms self _ Hn).
Qed.

(** C7 as stated fails: once a document that ends in a separator has been
    indexed, the empty string is a term of the index, and the empty query,
    whose only token is the empty string, finds that document. *)
Lemma C7_empty_query_counterexample :
  Tokenizer.split "" = [""]
  ∧ vector_space_search (index_all ["Chateau Margaux "]) "" ≠ Ok [].
Proof. split; [done|]. vm_compute. discriminate. Qed.

(** C7, amended: for every index state, a query none of whose tokens is a
    term of the index returns an empty result; the empty query has the
    empty string as its only token, so it returns an empty result when the
    empty string is not a term of the index. *)
Theorem C7_no_indexed_token_no_result self :
  (∀ terms,
     (∀ t, t ∈ Tokenizer.split terms → index self !! t = None) →
     vector_space_search self terms = Ok [])
  ∧ (index self !! "" = None → vector_space_search self "" = Ok []).
Proof.
  split.
  - apply search_without_hits.
  - intros He. apply search_without_hits.
    intros t Ht. change (Tokenizer.split "") with [""] in Ht.
    by apply list_elem_of_singleton in Ht as ->.
Qed.

Lemma C7_no_indexed_token_no_result_witness :
  vector_space_search (index_all wines) "hello" = Ok []
  ∧ vector_space_search (index_all wines) "" = Ok [].
Proof.
  destruct (C7_no_indexed_token_no_result (index_all wines)) as [H1 H2].
  split.
  - apply H1. intros t Ht. change (Tokenizer.split "hello") with ["hello"] in Ht.
    apply list_elem_of_singleton in Ht as ->. vm_compute. reflexivity.
  - apply H2. vm_compute. reflexivity.
Defined.

(** C8: no search divides by zero or takes the logarithm of zero.  With no
    document indexed every search has an empty candidate set and an empty
    result; in the index of any corpus, a term that has an entry in a
    stored vector (the guard under which the idf is computed) is a key of
    the index with a non-empty posting list, the corpus is not empty, the
    idf is computed without an exception, and so is every weight list and
    every search. *)
Theorem C8_idf_is_always_defined docs :
  let self := index_all docs in
  (∀ terms, candidates init (Tokenizer.split terms) = []
            ∧ vector_space_search init terms = Ok [])
  ∧ (∀ d v t n,
       vectors self !! d = Some v → v !! t = Some n →
       ∃ l, index self !! t = Some l
            ∧ 0 < length l ∧ 0 < length (documents self)
            ∧ idf (length (documents self)) (length l)
              = Ok (ln (INR (length (documents self)) / INR (length l))))
  ∧ (∀ q d v, vectors self !! d = Some v →
              ∃ ws, create_tfidf_list self q (Some v) = Ok ws)
  ∧ (∀ terms, ∃ res, vector_space_search self terms = Ok res).
Proof.
  intros self. subst self. split; [|split; [|split]].
  - intros terms. split.
    + unfold candidates. by rewrite no_hitting_terms.
    + by apply search_without_hits.
  - intros d v t n Hv Hn.
    destruct (vector_entry_indexed docs d v t n Hv Hn)
      as (_ & Hdocs & l & Hl & Hne & _).
    exists l. rewrite index_all_documents.
    destruct l; [done|]. destruct docs; [done|]. simpl.
    repeat split; [done | lia | lia].
  - intros q d v Hv. rewrite (create_tfidf_list_doc docs q d v Hv). eauto.
  - intros terms. rewrite vector_space_search_index_all. eauto.
Qed.

Lemma C8_idf_is_always_defined_witness :
  ∃ l, index (index_all wines) !! "Bordeaux" = Some l
       ∧ 0 < length l ∧ 0 < length (documents (index_all wines))
       ∧ idf (length (documents (index_all wines))) (length l)
         = Ok (ln (INR (length (documents (index_all wines)))
                   / INR (length l))).
Proof.
  destruct (C8_idf_is_always_defined wines) as (_ & H & _).
  apply (H 6 {[ "Chateau" := 1; "Margaux" := 1; "1982" := 1;
                "Bordeaux" := 1; "France" := 1 ]} "Bordeaux" 1).
  - vm_compute. reflexivity.
  - vm_compute. reflexivity.
Defined.

(** C10: after any sequence of [index_document] calls the document store
    and the vectors store have the same length, every identifier in a
    posting list is a position of both, and no search raises
    [IndexError]. *)
Theorem C10_postings_within_bounds docs :
  let self := index_all docs in
  length (documents self) = length (vectors self)
  ∧ (∀ t l p,
       index self !! t = Some l → p ∈ l →
       p < length (documents self)
       ∧ is_Some (vectors self !! p) ∧ is_Some (documents self !! p))
  ∧ (∀ terms, vector_space_search self terms ≠ Raise IndexError).
Proof.
  intros self. subst self. split; [|split].
  - by rewrite index_all_documents, index_all_vectors_length.
  - intros t l p Hl Hp. pose proof (posting_valid docs t l p Hl Hp) as Hlt.
    rewrite index_all_documents. split; [done|]. split.
    + apply lookup_lt_is_Some_2. by rewrite index_all_vectors_length.
    + by apply lookup_lt_is_Some_2.
  - intros terms. by rewrite vector_space_search_index_all.
Qed.

Lemma C10_postings_within_bounds_witness :
  7 < length (documents (index_all wines))
  ∧ is_Some (vectors (index_all wines) !! 7)
  ∧ is_Some (documents (index_all wines) !! 7).
Proof.
  destruct (C10_postings_within_bounds wines) as (_ & H & _).
  apply (H "Bordeaux" [6; 7; 8] 7).
  - vm_compute. reflexivity.
  - apply list_elem_of_In. simpl. auto.
Defined.

Lemma doc_weight_absent docs d t :
  index (index_all docs) !! t = None → doc_weight (index_all docs) d t = 0%R.
Proof.
  intros Hn. unfold doc_weight.
  destruct (vectors (index_all docs) !! d) as [v|] eqn:Hv; simpl; [|done].
  destruct (v !! t) as [n|] eqn:Ht; [|done].
  destruct (vector_entry_indexed docs d v t n Hv Ht) as (_ & _ & l & Hl & _).
  congruence.
Qed.

(** X17: in every index state where [hello] is in no indexed document,
    searching [hello Bordeaux] gives the same result as searching
    [Bordeaux] alone.  Both searches put the same keys into [hits] in the
    same order, so the two results are listed alike whatever the iteration
    order of a dict is. *)
Theorem hello_bordeaux_like_bordeaux docs :
  index (index_all docs) !! "hello" = None →
  vector_space_search (index_all docs) "hello Bordeaux"
  = vector_space_search (index_all docs) "Bordeaux".
Proof.
  intros Hh. rewrite !vector_space_search_index_all.
  change (Tokenizer.split "hello Bordeaux") with ["hello"; "Bordeaux"].
  change (Tokenizer.split "Bordeaux") with ["Bordeaux"].
  change (create_tf_dictionary "hello Bordeaux")
    with [("hello", 1); ("Bordeaux", 1)].
  change (create_tf_dictionary "Bordeaux") with [("Bordeaux", 1)].
  assert (candidates (index_all docs) ["hello"; "Bordeaux"]
          = candidates (index_all docs) ["Bordeaux"]) as ->.
  { unfold candidates. rewrite (filter_cons _ "hello").
    destruct (decide _) as [[l Hl]|_]; [congruence | done]. }
  f_equal. apply list_fmap_ext. intros _ p _. f_equal.
  unfold score. simpl. rewrite (doc_weight_absent docs p "hello" Hh). lra.
Qed.

Lemma hello_bordeaux_like_bordeaux_witness :
  vector_space_search (index_all wines) "hello Bordeaux"
  = vector_space_search (index_all wines) "Bordeaux".
Proof. apply (hello_bordeaux_like_bordeaux wines). vm_compute. reflexivity. Defined.

Lemma ln_2_bounds : (0 < ln 2 < 1)%R.
Proof.
  split.
  - pose proof ln_lt_2. lra.
  - rewrite <- (ln_exp 1). apply ln_increasing; [lra|].
    pose proof (exp_ineq1 1). lra.
Qed.

Lemma elem_of_candidates self terms p :
  p ∈ candidates self terms ↔ ∃ t, t ∈ terms ∧ p ∈ postings self t.
Proof.
  unfold candidates. rewrite elem_of_add_new, elem_of_nil, list_elem_of_bind.
  split.
  - intros [[]|(t & Hp & Ht)]. apply list_elem_of_filter in Ht as [_ Ht]. eauto.
  - intros (t & Ht & Hp). right. exists t. split; [done|].
    apply list_elem_of_filter. split; [|done].
    unfold postings in Hp. destruct (index self !! t); [done|].
    by apply elem_of_nil in Hp.
Qed.

(** C1 as stated fails: over the corpus [Bordeaux], [Bourgogne] the query
    [Bordeaux] has the query weight 1, not [1 * ln (2 / 1)], and its one
    result has the score [ln 2], not [ln 2 * ln 2]. *)
Lemma C1_query_weight_counterexample :
  let self := index_all ["Bordeaux"; "Bourgogne"] in
  let q := create_tf_dictionary "Bordeaux" in
  create_tfidf_list self q None ≠ Ok (spec_query_tfidf self q)
  ∧ vector_space_search self "Bordeaux"
    ≠ Ok ((λ p, (spec_score self q p, default "" (documents self !! p)))
          <$> candidates self (Tokenizer.split "Bordeaux")).
Proof.
  intros self q.
  assert (create_tfidf_list self q None = Ok [INR 1]) as ->
    by (vm_compute; reflexivity).
  assert (spec_query_tfidf self q = [(INR 1 * ln (INR 2 / INR 1))%R]) as ->
    by (vm_compute; reflexivity).
  assert (vector_space_search self "Bordeaux"
          = Ok [((INR 1 * (INR 1 * ln (INR 2 / INR 1)) + 0)%R, "Bordeaux")])
    as -> by (vm_compute; reflexivity).
  assert ((λ p, (spec_score self q p, default "" (documents self !! p)))
          <$> candidates self (Tokenizer.split "Bordeaux")
          = [((INR 1 * ln (INR 2 / INR 1)
               * (INR 1 * ln (INR 2 / INR 1)) + 0)%R, "Bordeaux")])
    as -> by (vm_compute; reflexivity).
  pose proof ln_2_bounds as Hb.
  replace (INR 2 / INR 1)%R with 2%R by (simpl; lra).
  replace (INR 1) with 1%R by done.
  split; intros [= H]; nra.
Qed.

Lemma score_Permutation self q q' d :
  q' ≡ₚ q → score self q' d = score self q d.
Proof.
  unfold score. induction 1 as [|[t n] q1 q2 _ IH|[t n] [t' n'] q1|q1 q2 q3 _ IH1 _ IH2];
    simpl.
  - done.
  - by rewrite IH.
  - lra.
  - by rewrite IH1.
Qed.

(** C1, amended: the query vector holds the raw query frequency of each
    query term, in whatever order the query dictionary is iterated, with
    no idf factor and whether or not the term is in the index.  The score
    of a candidate is the sum over the query terms of the raw query
    frequency times the candidate's tf-idf weight for that term,
    [tf * ln (N / df)], or 0 where the candidate lacks the term; it does
    not depend on the order of the query terms.  The candidates are the
    documents in the posting list of some query token, each taken once,
    and the result lists them with their scores, in no particular
    order. *)
Theorem C1_score_is_raw_query_tf_times_tfidf docs terms :
  let self := index_all docs in
  let q := create_tf_dictionary terms in
  (∀ q', create_tfidf_list self q' None = Ok (INR <$> q'.*2))
  ∧ (∀ q' d, q' ≡ₚ q → score self q' d = score self q d)
  ∧ ∃ res cands,
      vector_space_search self terms = Ok res
      ∧ NoDup cands
      ∧ (∀ p, p ∈ cands
              ↔ ∃ t, t ∈ Tokenizer.split terms ∧ p ∈ postings self t)
      ∧ res ≡ₚ (λ p, (score self q p, default "" (documents self !! p)))
               <$> cands.
Proof.
  intros self q. subst self q. split; [done|]. split.
  { intros q' d. apply score_Permutation. }
  eexists _, (candidates (index_all docs) (Tokenizer.split terms)).
  split; [apply vector_space_search_index_all|]. split; [|split].
  - apply NoDup_add_new, NoDup_nil_2.
  - intros p. apply elem_of_candidates.
  - by rewrite index_all_documents.
Qed.

Lemma C1_score_is_raw_query_tf_times_tfidf_witness :
  score (index_all wines) [("Bordeaux", 1); ("Margaux", 1)] 6
  = score (index_all wines) (create_tf_dictionary "Margaux Bordeaux") 6.
Proof.
  destruct (C1_score_is_raw_query_tf_times_tfidf wines "Margaux Bordeaux")
    as (_ & H & _).
  apply H.
  change (create_tf_dictionary "Margaux Bordeaux")
    with [("Margaux", 1); ("Bordeaux", 1)].
  apply perm_swap.
Defined.

(** ** The worked scenario *)

Lemma all_postings_once t docs :
  Forall (λ doc, occ t (Tokenizer.split doc) ≤ 1) docs →
  NoDup (all_postings t docs)
  ∧ (λ p, default "" (docs !! p)) <$> all_postings t docs
    = filter (λ doc, t ∈ Tokenizer.split doc) docs.
Proof.
  induction docs as [|doc docs IH] using rev_ind; intros Hocc.
  - split; [apply NoDup_nil_2 | done].
  - apply Forall_app in Hocc as [Hdocs Hdoc].
    apply Forall_inv in Hdoc. simpl in Hdoc.
    destruct (IH Hdocs) as [Hnd Hmap].
    rewrite all_postings_snoc, filter_app, fmap_app.
    assert (∀ p, p ∈ all_postings t docs → p < length docs) as Hlt.
    { intros p (doc' & Hp & _)%elem_of_all_postings.
      by eapply lookup_lt_Some. }
    split.
    + apply NoDup_app. split; [done|]. split.
      * intros p Hp Hp'%elem_of_replicate_inv. apply Hlt in Hp. lia.
      * destruct (occ t (Tokenizer.split doc)) as [|[|n]];
          [apply NoDup_nil_2 | apply NoDup_singleton | lia].
    + f_equal.
      * rewrite <- Hmap. apply list_fmap_ext. intros i p Hp.
        rewrite lookup_app_l; [done|]. apply Hlt.
        by eapply list_elem_of_lookup_2.
      * pose proof (occ_pos t (Tokenizer.split doc)) as Hpos.
        rewrite filter_cons, filter_nil.
        destruct (occ t (Tokenizer.split doc)) as [|[|n]]; [| |lia].
        -- destruct (decide _) as [Hin|]; [|done]. apply Hpos in Hin. done.
        -- simpl. rewrite list_lookup_middle by done. simpl.
           destruct (decide _) as [|Hn]; [done|]. exfalso. apply Hn, Hpos. lia.
Qed.

(** A bracket for [ln (10 / 3)]: with [1 - 1 / r <= ln r <= r - 1] at the
    2^20-th root, reached by twenty squarings rounded down or up. *)

Lemma ln_mono x y : (0 < x)%R → (x <= y)%R → (ln x <= ln y)%R.
Proof.
  intros Hx [Hlt | ->]; [|lra]. left. by apply ln_increasing.
Qed.

Lemma ln_le_pred x : (0 < x)%R → (ln x <= x - 1)%R.
Proof.
  intros Hx. pose proof (ln_mono x (exp (x - 1)) Hx) as H.
  rewrite ln_exp in H. apply H. pose proof (exp_ineq1_le (x - 1)). lra.
Qed.

Lemma ln_ge_inv x : (0 < x)%R → (1 - / x <= ln x)%R.
Proof.
  intros Hx. pose proof (Rinv_0_lt_compat x Hx) as Hi.
  pose proof (ln_le_pred (/ x) Hi) as H. rewrite ln_Rinv in H by done. lra.
Qed.

Lemma ln_sqr x : (0 < x)%R → ln (x * x) = (2 * ln x)%R.
Proof. intros Hx. rewrite ln_mult by done. lra. Qed.

Lemma scale_pos : (0 < IZR scale)%R.
Proof. apply IZR_lt. done. Qed.

Lemma fixed_pos x : (scale ≤ x)%Z → (0 < fixed x)%R.
Proof.
  intros Hx. unfold fixed. apply Rdiv_lt_0_compat; [|apply scale_pos].
  apply IZR_lt. unfold scale in *. lia.
Qed.

Lemma square_down_spec x :
  (scale ≤ x)%Z →
  (scale ≤ square_down x)%Z
  ∧ (fixed (square_down x) <= fixed x * fixed x)%R.
Proof.
  intros Hx. unfold square_down. split.
  - apply Z.div_le_lower_bound; [done|]. unfold scale in *. nia.
  - pose proof (Z.mul_div_le (x * x) scale) as H.
    apply IZR_le in H; [|done]. rewrite !mult_IZR in H.
    pose proof scale_pos as Hs. unfold fixed.
    apply (Rmult_le_reg_r (IZR scale * IZR scale)); [nra|].
    field_simplify; [|lra|lra]. nra.
Qed.

Lemma square_up_spec x :
  (scale ≤ x)%Z →
  (scale ≤ square_up x)%Z
  ∧ (fixed x * fixed x <= fixed (square_up x))%R.
Proof.
  intros Hx. unfold square_up.
  assert (x * x ≤ scale * ((x * x + scale - 1) `div` scale))%Z as H.
  { pose proof (Z.mul_succ_div_gt (x * x + scale - 1) scale). unfold scale in *. lia. }
  split.
  - unfold scale in *. nia.
  - apply IZR_le in H. rewrite !mult_IZR in H.
    pose proof scale_pos as Hs. unfold fixed.
    apply (Rmult_le_reg_r (IZR scale * IZR scale)); [nra|].
    field_simplify; [|lra|lra]. nra.
Qed.

Lemma iter_square_down n x :
  (scale ≤ x)%Z →
  (scale ≤ Nat.iter n square_down x)%Z
  ∧ (ln (fixed (Nat.iter n square_down x)) <= 2 ^ n * ln (fixed x))%R.
Proof.
  intros Hx. induction n as [|n [IH1 IH2]]; simpl.
  - split; [done|lra].
  - destruct (square_down_spec _ IH1) as [H1 H2]. split; [done|].
    pose proof (fixed_pos _ IH1) as Hp. pose proof (fixed_pos _ H1) as Hp'.
    apply (ln_mono _ _ Hp') in H2. rewrite ln_sqr in H2 by done. lra.
Qed.

Lemma iter_square_up n x :
  (scale ≤ x)%Z →
  (scale ≤ Nat.iter n square_up x)%Z
  ∧ (2 ^ n * ln (fixed x) <= ln (fixed (Nat.iter n square_up x)))%R.
Proof.
  intros Hx. induction n as [|n [IH1 IH2]]; simpl.
  - split; [done|lra].
  - destruct (square_up_spec _ IH1) as [H1 H2]. split; [done|].
    pose proof (fixed_pos _ IH1) as Hp.
    apply ln_mono in H2; [|nra]. rewrite ln_sqr in H2 by done. lra.
Qed.

Lemma ln_10_3_bounds : (1.20397 < ln (10 / 3) < 1.20398)%R.
Proof.
  pose proof scale_pos as Hsc. split.
  - destruct (iter_square_up 20 seed_below) as [Hs Hl]; [done|].
    assert (fixed (Nat.iter 20 square_up seed_below) <= 10 / 3)%R as Ht.
    { unfold fixed. apply (Rmult_le_reg_r (3 * IZR scale)); [lra|].
      field_simplify; [|lra]. rewrite <- !mult_IZR. apply IZR_le.
      by vm_compute. }
    apply ln_mono in Ht; [|by apply fixed_pos].
    pose proof (ln_ge_inv (fixed seed_below)) as Hi.
    assert (1.20397 < 2 ^ 20 * (1 - / fixed seed_below))%R as Hn.
    { unfold fixed, seed_below, scale. lra. }
    assert (0 < fixed seed_below)%R as Hp by (by apply fixed_pos).
    specialize (Hi Hp). lra.
  - destruct (iter_square_down 20 seed_above) as [Hs Hl]; [done|].
    assert (10 / 3 <= fixed (Nat.iter 20 square_down seed_above))%R as Ht.
    { unfold fixed. apply (Rmult_le_reg_r (3 * IZR scale)); [lra|].
      field_simplify; [|lra]. rewrite <- !mult_IZR. apply IZR_le.
      by vm_compute. }
    apply ln_mono in Ht; [|lra].
    assert (0 < fixed seed_above)%R as Hp by (by apply fixed_pos).
    pose proof (ln_le_pred (fixed seed_above) Hp) as Hi.
    assert (2 ^ 20 * (fixed seed_above - 1) < 1.20398)%R as Hn.
    { unfold fixed, seed_above, scale. lra. }
    lra.
Qed.

(** C4: over a corpus of ten documents of which exactly three contain the
    term [Bordeaux], each once, searching [Bordeaux] returns exactly those
    three documents, each with the score [ln (10 / 3)], which lies between
    1.20397 and 1.20398. *)
Theorem C4_bordeaux_in_three_of_ten docs :
  length docs = 10 →
  Forall (λ doc, occ "Bordeaux" (Tokenizer.split doc) ≤ 1) docs →
  length (filter (λ doc, "Bordeaux" ∈ Tokenizer.split doc) docs) = 3 →
  ∃ res,
    vector_space_search (index_all docs) "Bordeaux" = Ok res
    ∧ length res = 3
    ∧ (∀ r, r ∈ res → r.1 = ln (10 / 3) ∧ (1.20397 < r.1 < 1.20398)%R)
    ∧ res.*2 ≡ₚ filter (λ doc, "Bordeaux" ∈ Tokenizer.split doc) docs.
Proof.
  intros Hlen Hocc H3.
  destruct (all_postings_once "Bordeaux" docs Hocc) as [Hnd Hmap].
  assert (length (all_postings "Bordeaux" docs) = 3) as Hdf.
  { by rewrite <- H3, <- Hmap, length_fmap. }
  rewrite vector_space_search_index_all.
  change (Tokenizer.split "Bordeaux") with ["Bordeaux"].
  change (create_tf_dictionary "Bordeaux") with [("Bordeaux", 1)].
  assert (candidates (index_all docs) ["Bordeaux"]
          = all_postings "Bordeaux" docs) as ->.
  { unfold candidates. rewrite filter_cons, index_all_index.
    destruct (all_postings "Bordeaux" docs) as [|p l] eqn:E; [done|].
    simpl entry. destruct (decide _) as [_|Hn]; [|by destruct Hn].
    simpl. rewrite app_nil_r, postings_index_all, E.
    by apply (add_new_fresh []). }
  eexists. split; [done|]. split; [by rewrite length_fmap|]. split.
  - intros r (p & -> & Hp)%list_elem_of_fmap.
    cut (score (index_all docs) [("Bordeaux", 1)] p = ln (10 / 3)).
    { cbn [fst]. intros ->. split; [done | apply ln_10_3_bounds]. }
    simpl. apply elem_of_all_postings in Hp as (doc & Hdoc & Hpos).
    assert (occ "Bordeaux" (Tokenizer.split doc) = 1) as Hone.
    { apply list_elem_of_lookup_2 in Hdoc.
      rewrite Forall_forall in Hocc. apply Hocc in Hdoc. lia. }
    unfold doc_weight.
    rewrite index_all_vectors, Hdoc, index_all_documents, postings_index_all.
    simpl. rewrite Hone, Hlen, Hdf. simpl.
    replace (1 * (1 * ln ((1 + 1 + 1 + 1 + 1 + 1 + 1 + 1 + 1 + 1) / (1 + 1 + 1))) + 0)%R
      with (ln ((1 + 1 + 1 + 1 + 1 + 1 + 1 + 1 + 1 + 1) / (1 + 1 + 1)))
      by lra.
    f_equal. lra.
  - rewrite <- Hmap, <- list_fmap_compose. done.
Qed.

Lemma C4_bordeaux_in_three_of_ten_witness :
  ∃ res,
    vector_space_search (index_all wines) "Bordeaux" = Ok res
    ∧ length res = 3
    ∧ (∀ r, r ∈ res → r.1 = ln (10 / 3) ∧ (1.20397 < r.1 < 1.20398)%R)
    ∧ res.*2 ≡ₚ [ "Chateau Margaux 1982, Bordeaux, France";
                  "Chateau Margaux 1996, Bordeaux, France";
                  "Chateau Latour 1982, Bordeaux, France" ].
Proof.
  apply (C4_bordeaux_in_three_of_ten wines).
  - reflexivity.
  - repeat constructor; vm_compute; lia.
  - vm_compute. reflexivity.
Defined.

(** C9 (what the code does): an added query term that is in no indexed
    document can change the result.  In the notebook's corpus
    [Saint-Emilion] is not a term of the index, yet searching
    [Saint-Emilion Saint] gives the three documents that contain [Saint]
    twice the score that searching [Saint] gives them: the query
    frequency of [Saint] is counted in the raw query text, where it occurs
    twice. *)
Theorem C9_absent_term_doubles_score :
  index (index_all wines) !! "Saint-Emilion" = None
  ∧ create_tf_dictionary "Saint-Emilion Saint"
    = [("Saint-Emilion", 1); ("Saint", 2)]
  ∧ ∃ r1 r2,
      vector_space_search (index_all wines) "Saint" = Ok r1
      ∧ vector_space_search (index_all wines) "Saint-Emilion Saint" = Ok r2
      ∧ r1.*2 = r2.*2 ∧ length r1 = 3
      ∧ (∀ r, r ∈ r1 → r.1 = ln (10 / 3))
      ∧ (∀ r, r ∈ r2 → r.1 = (2 * ln (10 / 3))%R)
      ∧ ¬ r1 ≡ₚ r2.
Proof.
  split; [vm_compute; reflexivity|]. split; [vm_compute; reflexivity|].
  set (a := (INR 1 * (INR 1 * ln (INR 10 / INR 3)) + 0)%R).
  set (b := (INR 1 * 0 + (INR 2 * (INR 1 * ln (INR 10 / INR 3)) + 0))%R).
  set (d2 := "Bruno Clair Clos Saint Jaques 2001, Bourgogne, France").
  set (d3 := "Bruno Clair Clos Saint Jaques 2002, Bourgogne, France").
  set (d4 := "Bruno Clair Clos Saint Jaques 2005, Bourgogne, France").
  exists [(a, d2); (a, d3); (a, d4)], [(b, d2); (b, d3); (b, d4)].
  assert (a = ln (10 / 3)) as Ha.
  { subst a. replace (INR 10 / INR 3)%R with (10 / 3)%R by (simpl; lra).
    simpl. lra. }
  assert (b = (2 * ln (10 / 3))%R) as Hb.
  { subst b. replace (INR 10 / INR 3)%R with (10 / 3)%R by (simpl; lra).
    simpl. lra. }
  split; [subst a d2 d3 d4; vm_compute; reflexivity|].
  split; [subst b d2 d3 d4; vm_compute; reflexivity|].
  split; [done|]. split; [done|].
  assert (∀ r, r ∈ [(b, d2); (b, d3); (b, d4)] → r.1 = b) as Hr2.
  { intros r Hr. repeat (apply elem_of_cons in Hr as [->|Hr]; [done|]).
    by apply elem_of_nil in Hr. }
  split; [|split].
  - intros r Hr. repeat (apply elem_of_cons in Hr as [->|Hr]; [done|]).
    by apply elem_of_nil in Hr.
  - intros r Hr. by rewrite (Hr2 r Hr).
  - intros Hperm. assert ((a, d2) ∈ [(b, d2); (b, d3); (b, d4)]) as Hin.
    { rewrite <- Hperm. by left. }
    apply Hr2 in Hin. simpl in Hin.
    pose proof ln_10_3_bounds. lra.
Qed.

(** * Further properties of the tokenizer, the index and the scorer *)

(** ** Strings *)

Lemma append_cons c s t : String c s +:+ t = String c (s +:+ t).
Proof. done. Qed.

Lemma append_nil_r s : s +:+ "" = s.
Proof.
  induction s as [|c s IH]; [done|]. by rewrite append_cons, IH.
Qed.

Lemma append_assoc s1 s2 s3 : (s1 +:+ s2) +:+ s3 = s1 +:+ s2 +:+ s3.
Proof.
  induction s1 as [|c s1 IH]; [done|]. by rewrite !append_cons, IH.
Qed.

Lemma length_append s1 s2 :
  String.length (s1 +:+ s2) = String.length s1 + String.length s2.
Proof.
  induction s1 as [|c s1 IH]; [done|]. rewrite append_cons. simpl.
  by rewrite IH.
Qed.

Lemma all_chars_append p s1 s2 :
  all_chars p (s1 +:+ s2) = all_chars p s1 && all_chars p s2.
Proof.
  induction s1 as [|c s1 IH]; [done|]. rewrite append_cons. simpl.
  by rewrite IH, andb_assoc.
Qed.

(** ** The tokenizer on words and separators *)

Lemma skip_while_suffix p s :
  ∃ m, s = m +:+ Tokenizer.skip_while p s.
Proof.
  induction s as [|c s [m IH]]; simpl; [by exists ""|].
  destruct (p c).
  - exists (String c m). by rewrite append_cons, <- IH.
  - by exists "".
Qed.

Lemma skip_while_stable p a r :
  Tokenizer.skip_while p r = r →
  Tokenizer.skip_while p (a +:+ r) = Tokenizer.skip_while p a +:+ r.
Proof.
  intros Hr. induction a as [|c a IH]; [done|].
  rewrite append_cons. simpl. by destruct (p c).
Qed.

Lemma skip_while_head p c s :
  p c = false → Tokenizer.skip_while p (String c s) = String c s.
Proof. intros H. simpl. by rewrite H. Qed.

Lemma after_match_suffix b s :
  ∃ m, s = m +:+ Tokenizer.after_match b s.
Proof.
  unfold Tokenizer.after_match. destruct s as [|c s]; [by exists ""|].
  destruct (b && Tokenizer.is_space c); [apply skip_while_suffix|].
  destruct (skip_while_suffix Tokenizer.is_space (String c s)) as [m1 H1].
  destruct (skip_while_suffix Tokenizer.is_comma
              (Tokenizer.skip_while Tokenizer.is_space (String c s)))
    as [m2 H2].
  destruct (skip_while_suffix Tokenizer.is_space
              (Tokenizer.skip_while Tokenizer.is_comma
                 (Tokenizer.skip_while Tokenizer.is_space (String c s))))
    as [m3 H3].
  exists (m1 +:+ m2 +:+ m3). rewrite !append_assoc.
  by rewrite <- H3, <- H2, <- H1.
Qed.

Lemma after_match_length b s :
  String.length (Tokenizer.after_match b s) ≤ String.length s.
Proof.
  destruct (after_match_suffix b s) as [m H].
  rewrite H at 2. rewrite length_append. lia.
Qed.

(** At a character that is no separator the pattern matches the empty
    string only. *)
Lemma after_match_word b c s :
  is_sep c = false →
  Tokenizer.after_match b (String c s) = String c s.
Proof.
  unfold is_sep. intros [Hs Hc]%orb_false_elim.
  unfold Tokenizer.after_match. rewrite Hs, andb_false_r.
  by rewrite !skip_while_head.
Qed.

(** At a separator character the match is not empty. *)
Lemma after_match_sep b c s :
  is_sep c = true →
  String.length (Tokenizer.after_match b (String c s)) < String.length (String c s).
Proof.
  unfold is_sep. intros Hsep.
  pose proof (skip_while_length Tokenizer.is_space s) as H1.
  pose proof (skip_while_length Tokenizer.is_comma s) as H2.
  unfold Tokenizer.after_match.
  destruct (Tokenizer.is_space c) eqn:Hs.
  - assert (String.length (Tokenizer.skip_while Tokenizer.is_space (String c s))
            < String.length (String c s)) as H.
    { simpl. rewrite Hs. lia. }
    destruct (b && true); [done|].
    eapply Nat.le_lt_trans; [apply skip_while_length|].
    eapply Nat.le_lt_trans; [apply skip_while_length|]. done.
  - rewrite andb_false_r. simpl in Hsep. rewrite skip_while_head by done.
    eapply Nat.le_lt_trans; [apply skip_while_length|].
    simpl. rewrite Hsep. simpl. lia.
Qed.

Lemma split_from_clean fuel b tok s :
  String.length s < fuel → clean tok = true →
  Forall (λ t, clean t = true) (Tokenizer.split_from fuel b tok s).
Proof.
  revert b tok s. induction fuel as [|fuel IH]; intros b tok s Hf Htok; [lia|].
  simpl. destruct (Nat.ltb_spec
    (String.length (Tokenizer.after_match b s)) (String.length s)) as [Hlt|Hge].
  - constructor; [done|]. apply IH; [lia | done].
  - destruct s as [|c s]; [by constructor|].
    destruct (is_sep c) eqn:Hc.
    { pose proof (after_match_sep b c s Hc). lia. }
    apply IH; [simpl in Hf; lia|].
    unfold clean in *. rewrite all_chars_append, Htok. simpl. by rewrite Hc.
Qed.

Lemma split_from_not_nil fuel b tok s :
  Tokenizer.split_from fuel b tok s ≠ [].
Proof.
  revert b tok s. induction fuel as [|fuel IH]; intros b tok s; [done|].
  simpl. destruct (_ <? _); [done|]. destruct s; [done | apply IH].
Qed.

Lemma split_from_word fuel b tok s :
  String.length s < fuel → clean s = true →
  Tokenizer.split_from fuel b tok s = [tok +:+ s].
Proof.
  revert fuel b tok. induction s as [|c s IH]; intros fuel b tok Hf Hs.
  - destruct fuel; [lia|]. simpl. by rewrite append_nil_r.
  - destruct fuel; [lia|]. unfold clean in Hs. simpl in Hs.
    apply andb_prop in Hs as [Hc%negb_true_iff Hs].
    cbn [Tokenizer.split_from]. rewrite after_match_word by done.
    rewrite Nat.ltb_irrefl, IH; [|simpl in Hf; lia | done].
    by rewrite append_assoc.
Qed.

Lemma split_from_step_word fuel b tok c s :
  is_sep c = false →
  Tokenizer.split_from (S fuel) b tok (String c s)
  = Tokenizer.split_from fuel false (tok +:+ String c "") s.
Proof.
  intros Hc. cbn [Tokenizer.split_from].
  by rewrite after_match_word, Nat.ltb_irrefl.
Qed.

Lemma split_from_step_match fuel b tok s :
  String.length (Tokenizer.after_match b s) < String.length s →
  Tokenizer.split_from (S fuel) b tok s
  = tok :: Tokenizer.split_from fuel false "" (Tokenizer.after_match b s).
Proof.
  intros Hlt. cbn [Tokenizer.split_from].
  by destruct (Nat.ltb_spec (String.length (Tokenizer.after_match b s))
                 (String.length s)); [|lia].
Qed.

Lemma split_from_consume fuel b tok w r :
  String.length (w +:+ r) < fuel → clean w = true → w ≠ "" →
  Tokenizer.split_from fuel b tok (w +:+ r)
  = Tokenizer.split_from (S (String.length r)) false (tok +:+ w) r.
Proof.
  revert fuel b tok. induction w as [|c w IH]; intros fuel b tok Hf Hw Hne;
    [done|].
  destruct fuel; [lia|]. unfold clean in Hw. simpl in Hw.
  apply andb_prop in Hw as [Hc%negb_true_iff Hw].
  rewrite append_cons in *. rewrite split_from_step_word by done.
  simpl in Hf. destruct w as [|c' w].
  - change ("" +:+ r) with r in *. apply split_from_fuel; lia.
  - rewrite IH; [|lia | done | done]. by rewrite append_assoc.
Qed.

Lemma split_from_separator fuel tok sep r :
  separator sep →
  Tokenizer.skip_while Tokenizer.is_space r = r →
  Tokenizer.skip_while Tokenizer.is_comma r = r →
  String.length (sep +:+ r) < fuel →
  Tokenizer.split_from fuel false tok (sep +:+ r)
  = tok :: Tokenizer.split_from (S (String.length r)) false "" r.
Proof.
  intros [Hne Hsep] Hs Hc Hf. destruct fuel; [lia|].
  assert (Tokenizer.after_match false (sep +:+ r) = r) as Hm.
  { destruct sep as [|c sep]; [done|]. rewrite append_cons.
    unfold Tokenizer.after_match. rewrite andb_false_l, <- append_cons.
    rewrite (skip_while_stable Tokenizer.is_space) by done.
    rewrite (skip_while_stable Tokenizer.is_comma) by done.
    rewrite (skip_while_stable Tokenizer.is_space) by done.
    by rewrite Hsep. }
  assert (String.length sep ≠ 0) as Hl by (by destruct sep).
  rewrite length_append in Hf.
  rewrite (split_from_step_match fuel false tok (sep +:+ r));
    rewrite Hm; [|rewrite length_append; lia].
  f_equal. apply split_from_fuel; lia.
Qed.

Lemma concat_cons sep w w' ws :
  String.concat sep (w :: w' :: ws)
  = w +:+ sep +:+ String.concat sep (w' :: ws).
Proof. done. Qed.

Lemma concat_head sep w ws :
  clean w = true → w ≠ "" →
  ∃ c tl, String.concat sep (w :: ws) = String c tl ∧ is_sep c = false.
Proof.
  intros Hw Hne. destruct w as [|c w]; [done|].
  unfold clean in Hw. simpl in Hw.
  apply andb_prop in Hw as [Hc%negb_true_iff _].
  destruct ws as [|w' ws].
  - by exists c, w.
  - rewrite concat_cons, append_cons. eauto.
Qed.

Lemma split_from_concat sep ws fuel b :
  separator sep → ws ≠ [] →
  Forall (λ w, clean w = true ∧ w ≠ "") ws →
  String.length (String.concat sep ws) < fuel →
  Tokenizer.split_from fuel b "" (String.concat sep ws) = ws.
Proof.
  intros Hsep. revert fuel b.
  induction ws as [|w ws IH]; intros fuel b Hne Hws Hf; [done|].
  apply Forall_cons in Hws as [[Hw Hwne] Hws].
  destruct ws as [|w' ws].
  - simpl in *. rewrite split_from_word; [done | lia | done].
  - rewrite concat_cons in *.
    rewrite split_from_consume by done.
    apply Forall_cons in Hws as [[Hw' Hwne'] Hws'].
    destruct (concat_head sep w' ws Hw' Hwne') as (c & tl & Hhd & Hc).
    unfold is_sep in Hc. apply orb_false_elim in Hc as [Hcs Hcc].
    rewrite split_from_separator; [|done| | |lia].
    + f_equal. apply IH; [done | by constructor | lia].
    + rewrite Hhd. by apply skip_while_head.
    + rewrite Hhd. by apply skip_while_head.
Qed.

Lemma split_from_substring fuel b tok s orig pre t :
  orig = pre +:+ tok +:+ s →
  t ∈ Tokenizer.split_from fuel b tok s → substring_of t orig.
Proof.
  revert b tok s pre. induction fuel as [|fuel IH]; intros b tok s pre Ho Ht.
  - apply list_elem_of_singleton in Ht as ->.
    exists pre, "". by rewrite append_nil_r.
  - simpl in Ht. destruct (_ <? _).
    + apply elem_of_cons in Ht as [->|Ht]; [by exists pre, s|].
      destruct (after_match_suffix b s) as [m Hm].
      apply (IH false "" (Tokenizer.after_match b s) (pre +:+ tok +:+ m));
        [|done].
      change ("" +:+ Tokenizer.after_match b s)
        with (Tokenizer.after_match b s).
      by rewrite !append_assoc, <- Hm.
    + destruct s as [|c s].
      * apply list_elem_of_singleton in Ht as ->. by exists pre, "".
      * apply (IH false (tok +:+ String c "") s pre); [|done].
        by rewrite Ho, append_assoc.
Qed.

(** X1: every text has at least one token, and no token contains white space
    or a comma. *)
Theorem split_tokens_clean s :
  Tokenizer.split s ≠ []
  ∧ Forall (λ t, clean t = true) (Tokenizer.split s).
Proof.
  split; [apply split_from_not_nil|].
  apply split_from_clean; [lia | done].
Qed.

(** X2: a text without white space and commas, the empty text included, is its
    own single token. *)
Theorem split_clean_word s :
  clean s = true → Tokenizer.split s = [s].
Proof.
  intros Hs. unfold Tokenizer.split.
  rewrite split_from_word; [done | lia | done].
Qed.

Lemma split_clean_word_witness : Tokenizer.split "Coche-Dury" = ["Coche-Dury"].
Proof. apply (split_clean_word "Coche-Dury"). reflexivity. Defined.

(** X3: tokenizing a token again gives that token alone. *)
Theorem split_idempotent s t :
  t ∈ Tokenizer.split s → Tokenizer.split t = [t].
Proof.
  intros Ht.
  pose proof (split_from_clean (S (String.length s)) true "" s) as Hc.
  rewrite Forall_forall in Hc. unfold Tokenizer.split.
  rewrite split_from_word; [done | lia | by apply Hc; [lia | |]].
Qed.

Lemma split_idempotent_witness : Tokenizer.split "Bourgogne" = ["Bourgogne"].
Proof.
  apply (split_idempotent "Clos Saint Jaques 2001, Bourgogne, France").
  vm_compute. repeat constructor.
Defined.

(** X4: round trip: non-empty words without white space and commas, joined
    by a separator, are recovered by the tokenizer. *)
Theorem split_concat sep ws :
  separator sep → ws ≠ [] →
  Forall (λ w, clean w = true ∧ w ≠ "") ws →
  Tokenizer.split (String.concat sep ws) = ws.
Proof.
  intros Hsep Hne Hws. unfold Tokenizer.split.
  by apply split_from_concat; [| | |lia].
Qed.

Lemma split_concat_witness :
  Tokenizer.split (String.concat " , " ["Chateau"; "Margaux"; "1982"])
  = ["Chateau"; "Margaux"; "1982"].
Proof.
  apply (split_concat " , " ["Chateau"; "Margaux"; "1982"]).
  - split; [done | reflexivity].
  - done.
  - repeat constructor; done.
Defined.

(** X5: every token is a piece of the text it was cut from. *)
Theorem split_tokens_substrings s t :
  t ∈ Tokenizer.split s → substring_of t s.
Proof. intros Ht. by apply (split_from_substring _ _ _ _ s "" t) in Ht. Qed.

Lemma split_tokens_substrings_witness :
  substring_of "Margaux" "Chateau Margaux 1982".
Proof.
  apply (split_tokens_substrings "Chateau Margaux 1982" "Margaux").
  vm_compute. repeat constructor.
Defined.

(** ** The query dictionary *)

Lemma prefix_length a b :
  String.prefix a b = true → String.length a ≤ String.length b.
Proof.
  revert a. induction b as [|c b IH]; intros [|d a]; simpl; try done; [lia|].
  destruct (ascii_dec d c); [|done]. intros H%IH. lia.
Qed.

Lemma prefix_append t post : String.prefix t (t +:+ post) = true.
Proof.
  induction t as [|c t IH]; [by destruct post|].
  rewrite append_cons. simpl. by destruct (ascii_dec c c).
Qed.

Lemma count_from_bound sub skip s :
  count_from sub skip s * String.length sub ≤ String.length s - skip.
Proof.
  revert skip. induction s as [|c s IH]; intros skip; [done|].
  destruct skip as [|k]; cbn [count_from].
  - destruct (String.prefix sub (String c s)) eqn:Hp.
    + apply prefix_length in Hp. simpl in Hp.
      specialize (IH (String.length sub - 1)). simpl. lia.
    + specialize (IH 0). simpl. lia.
  - specialize (IH k). simpl. lia.
Qed.

Lemma count_from_substring t pre post :
  t ≠ "" → 1 ≤ count_from t 0 (pre +:+ t +:+ post).
Proof.
  intros Hne. induction pre as [|c pre IH].
  - change ("" +:+ t +:+ post) with (t +:+ post).
    destruct t as [|c t]; [done|]. rewrite append_cons. cbn [count_from].
    rewrite <- append_cons, prefix_append. lia.
  - rewrite append_cons. cbn [count_from].
    destruct (String.prefix t _); lia.
Qed.

Lemma str_count_bounds s t :
  substring_of t s →
  1 ≤ str_count s t ∧ str_count s t * String.length t ≤ String.length s.
Proof.
  intros (pre & post & ->). destruct t as [|c t].
  - simpl. lia.
  - unfold str_count. split; [by apply count_from_substring|].
    pose proof (count_from_bound (String c t) 0
                  (pre +:+ String c t +:+ post)). lia.
Qed.

Section TfDictionary.
Variable g : string → nat.

Let step (res : list (string * nat)) (term : string) :=
  if dict_mem term res then res else res ++ [(term, g term)].

Lemma tf_fold_keys l acc t :
  t ∈ (foldl step acc l).*1 ↔ t ∈ acc.*1 ∨ t ∈ l.
Proof.
  revert acc. induction l as [|a l IH]; intros acc; simpl.
  - rewrite elem_of_nil. tauto.
  - rewrite IH, elem_of_cons. unfold step, dict_mem.
    case_bool_decide as Ha.
    + split; [tauto|]. intros [?|[->|?]]; tauto.
    + rewrite fmap_app, elem_of_app. simpl. rewrite list_elem_of_singleton.
      tauto.
Qed.

Lemma tf_fold_NoDup l acc :
  NoDup acc.*1 → NoDup (foldl step acc l).*1.
Proof.
  revert acc. induction l as [|a l IH]; intros acc Hnd; [done|].
  simpl. apply IH. unfold step, dict_mem. case_bool_decide as Ha; [done|].
  rewrite fmap_app. apply NoDup_app. split; [done|].
  split; [|apply NoDup_singleton].
  intros x Hx ->%list_elem_of_singleton. done.
Qed.

Lemma tf_fold_values l acc t n :
  (t, n) ∈ foldl step acc l → (t, n) ∈ acc ∨ (t ∈ l ∧ n = g t).
Proof.
  revert acc. induction l as [|a l IH]; intros acc; simpl; [by left|].
  intros [H|[H ->]]%IH.
  - unfold step in H. destruct (dict_mem a acc); [by left|].
    apply elem_of_app in H as [H|H]; [by left|].
    apply list_elem_of_singleton in H as [= -> ->]. right. split; [by left|done].
  - right. split; [by right | done].
Qed.
End TfDictionary.

(** X6: the query dictionary has one entry per distinct token of the query,
    and no other key; the value of a token is its number of
    non-overlapping occurrences in the raw query text, which is at least 1
    and at most what fits into the text. *)
Theorem create_tf_dictionary_entries terms :
  let q := create_tf_dictionary terms in
  NoDup q.*1
  ∧ (∀ t, t ∈ q.*1 ↔ t ∈ Tokenizer.split terms)
  ∧ (∀ t n, (t, n) ∈ q →
       n = str_count terms t
       ∧ 1 ≤ n ∧ n * String.length t ≤ String.length terms).
Proof.
  intros q. subst q. unfold create_tf_dictionary. split; [|split].
  - apply (tf_fold_NoDup (str_count terms)). apply NoDup_nil_2.
  - intros t. rewrite (tf_fold_keys (str_count terms)).
    simpl. rewrite elem_of_nil. tauto.
  - intros t n [H|[Ht ->]]%(tf_fold_values (str_count terms)).
    + by apply elem_of_nil in H.
    + split; [done|]. apply str_count_bounds.
      by apply (split_from_substring _ _ _ _ terms "" t) in Ht.
Qed.

Lemma create_tf_dictionary_entries_witness :
  2 = str_count "Saint Saint-Emilion" "Saint"
  ∧ 1 ≤ 2 ∧ 2 * String.length "Saint" ≤ String.length "Saint Saint-Emilion".
Proof.
  destruct (create_tf_dictionary_entries "Saint Saint-Emilion") as (_ & _ & H).
  apply H. vm_compute. repeat constructor.
Defined.

(** ** More on the index of a corpus *)

(** X7: the vector of a document counts the occurrences of each term among
    the tokens of that document, and indexing further documents does not
    change it. *)
Theorem document_vector_counts_tokens docs more d doc t :
  docs !! d = Some doc →
  tf (index_all (docs ++ more)) d t = occ t (Tokenizer.split doc).
Proof.
  intros Hd. rewrite tf_index_all.
  by rewrite (lookup_app_l_Some _ _ _ _ Hd).
Qed.

Lemma document_vector_counts_tokens_witness :
  tf (index_all wines) 5 "Bourgogne" = 2.
Proof.
  apply (document_vector_counts_tokens (take 6 wines) (drop 6 wines) 5
           "Coche-Dury Bourgogne Chardonay 2005, Bourgogne, France"
           "Bourgogne").
  reflexivity.
Defined.

Lemma length_filter_replicate (d k n : nat) :
  length (filter (λ p, p = d) (replicate n k)) = if decide (k = d) then n else 0.
Proof.
  induction n as [|n IH]; simpl; [by destruct (decide _)|].
  rewrite filter_cons. destruct (decide (k = d)); simpl; by rewrite IH.
Qed.

(** X8: a document is listed under a term as many times as its vector counts
    the term. *)
Theorem posting_multiplicity docs d t :
  length (filter (λ p, p = d) (postings (index_all docs) t))
  = tf (index_all docs) d t.
Proof.
  rewrite postings_index_all, tf_index_all.
  induction docs as [|doc docs IH] using rev_ind; [done|].
  rewrite all_postings_snoc, filter_app, length_app, IH.
  rewrite length_filter_replicate.
  destruct (decide (length docs = d)) as [<-|Hne].
  - rewrite list_lookup_middle by done.
    rewrite (lookup_ge_None_2 docs) by done. done.
  - destruct (decide (d < length docs)) as [Hlt|Hge].
    + rewrite lookup_app_l by done. lia.
    + rewrite (lookup_ge_None_2 docs) by lia.
      rewrite (lookup_ge_None_2 (docs ++ [doc]))
        by (rewrite length_app; simpl; lia).
      done.
Qed.

(** X9: the terms of the index are exactly the tokens of the indexed
    documents. *)
Theorem index_terms_are_document_tokens docs t :
  is_Some (index (index_all docs) !! t)
  ↔ ∃ doc, doc ∈ docs ∧ t ∈ Tokenizer.split doc.
Proof.
  rewrite index_all_index. split.
  - intros [l Hl]. destruct (all_postings t docs) as [|p l'] eqn:E; [done|].
    assert (p ∈ all_postings t docs) as Hp by (rewrite E; by left).
    apply elem_of_all_postings in Hp as (doc & Hd & Ho).
    exists doc. split; [by eapply list_elem_of_lookup_2 | by apply occ_pos].
  - intros (doc & [d Hd]%list_elem_of_lookup_1 & Ht).
    assert (d ∈ all_postings t docs) as Hp.
    { apply elem_of_all_postings. exists doc. split; [done | by apply occ_pos]. }
    destruct (all_postings t docs); [by apply elem_of_nil in Hp | done].
Qed.

Lemma StronglySorted_replicate (n k : nat) : StronglySorted le (replicate n k).
Proof.
  induction n as [|n IH]; simpl; [constructor|].
  constructor; [done|]. apply Forall_forall.
  intros x ->%elem_of_replicate_inv. done.
Qed.

(** X10: posting lists are in ascending order of document identifier. *)
Theorem postings_ascending docs t :
  StronglySorted le (postings (index_all docs) t).
Proof.
  rewrite postings_index_all.
  induction docs as [|doc docs IH] using rev_ind; [constructor|].
  rewrite all_postings_snoc. apply StronglySorted_app_2.
  - intros p1 p2 (doc' & Hd & _)%elem_of_all_postings ->%elem_of_replicate_inv.
    apply lookup_lt_Some in Hd. lia.
  - done.
  - apply StronglySorted_replicate.
Qed.

Lemma all_postings_app t docs more :
  all_postings t docs `prefix_of` all_postings t (docs ++ more).
Proof.
  induction more as [|doc more IH] using rev_ind.
  - by rewrite app_nil_r.
  - rewrite app_assoc, all_postings_snoc. by apply prefix_app_r.
Qed.

Lemma index_all_vectors_app docs more :
  vectors (index_all docs) `prefix_of` vectors (index_all (docs ++ more)).
Proof.
  induction more as [|doc more IH] using rev_ind.
  - by rewrite app_nil_r.
  - rewrite app_assoc, index_all_snoc.
    destruct (index_document_vectors (index_all (docs ++ more)) doc)
      as (v & -> & _).
    by apply prefix_app_r.
Qed.

(** X11: indexing only appends: the documents, the vectors and every posting
    list of an index are prefixes of what they are after further
    documents have been indexed. *)
Theorem indexing_only_appends docs more :
  documents (index_all docs) `prefix_of` documents (index_all (docs ++ more))
  ∧ vectors (index_all docs) `prefix_of` vectors (index_all (docs ++ more))
  ∧ ∀ t, postings (index_all docs) t
         `prefix_of` postings (index_all (docs ++ more)) t.
Proof.
  split; [|split].
  - rewrite !index_all_documents. by exists more.
  - apply index_all_vectors_app.
  - intros t. rewrite !postings_index_all. apply all_postings_app.
Qed.

(** ** The idf and the weight lists *)

Lemma Rdiv_gt_1 a b : (0 < b)%R → (b < a)%R → (1 < a / b)%R.
Proof.
  intros Hb Hab. apply (Rmult_lt_reg_r b); [done|].
  unfold Rdiv. rewrite Rmult_assoc, Rinv_l; lra.
Qed.

Lemma Rdiv_lt_1 a b : (0 < a)%R → (a < b)%R → (0 < a / b < 1)%R.
Proof.
  intros Ha Hab. split; [apply Rdiv_lt_0_compat; lra|].
  apply (Rmult_lt_reg_r b); [lra|].
  unfold Rdiv. rewrite Rmult_assoc, Rinv_l; lra.
Qed.

(** X12: with a document and a posting the idf is defined; it is positive for
    a term with fewer postings than there are documents, zero when there
    are as many, and negative when there are more. *)
Theorem idf_sign N df :
  0 < N → 0 < df →
  ∃ w, idf N df = Ok w
       ∧ (df < N → (0 < w)%R)
       ∧ (df = N → w = 0%R)
       ∧ (N < df → (w < 0)%R).
Proof.
  intros HN Hdf. exists (ln (INR N / INR df)). split.
  { unfold idf. destruct df; [lia|]. destruct N; [lia|]. done. }
  pose proof (lt_0_INR N HN) as HN'. pose proof (lt_0_INR df Hdf) as Hdf'.
  split; [|split].
  - intros Hlt%lt_INR. rewrite <- ln_1.
    apply ln_increasing; [lra | by apply Rdiv_gt_1].
  - intros ->. unfold Rdiv. rewrite Rinv_r by lra. apply ln_1.
  - intros Hlt%lt_INR. rewrite <- ln_1.
    destruct (Rdiv_lt_1 (INR N) (INR df)); [done..|].
    by apply ln_increasing.
Qed.

Lemma idf_sign_witness :
  ∃ w, idf 1 2 = Ok w
       ∧ (2 < 1 → (0 < w)%R) ∧ (2 = 1 → w = 0%R) ∧ (1 < 2 → (w < 0)%R).
Proof. apply (idf_sign 1 2); lia. Defined.

(** X13: for a fixed corpus size the idf decreases as the number of postings
    grows. *)
Theorem idf_decreasing N df1 df2 :
  0 < N → 0 < df1 → df1 < df2 →
  ∃ w1 w2, idf N df1 = Ok w1 ∧ idf N df2 = Ok w2 ∧ (w2 < w1)%R.
Proof.
  intros HN H1 H12. exists (ln (INR N / INR df1)), (ln (INR N / INR df2)).
  split; [|split].
  - unfold idf. destruct df1; [lia|]. destruct N; [lia|]. done.
  - unfold idf. destruct df2; [lia|]. destruct N; [lia|]. done.
  - pose proof (lt_0_INR N HN) as HN'. pose proof (lt_0_INR df1 H1) as H1'.
    pose proof (lt_INR _ _ H12) as H12'.
    apply ln_increasing; [apply Rdiv_lt_0_compat; lra|].
    unfold Rdiv. apply Rmult_lt_compat_l; [done|].
    apply Rinv_lt_contravar; [|done]. nra.
Qed.

Lemma idf_decreasing_witness :
  ∃ w1 w2, idf 10 2 = Ok w1 ∧ idf 10 3 = Ok w2 ∧ (w2 < w1)%R.
Proof. apply (idf_decreasing 10 2 3); lia. Defined.

Section Weights.
Variable self : IrIndex.
Variable v : gmap string nat.

Let body (res : list R) (term : string) : result (list R) :=
  match v !! term with
  | Some n =>
      postings ← of_option KeyError (index self !! term);
      w ← idf (length (documents self)) (length postings);
      Ok (res ++ [(INR n * w)%R])
  | None => Ok (res ++ [0%R])
  end.

(** What makes the weight of a term computable. *)
Let backed (t : string) : Prop :=
  is_Some (v !! t) →
  documents self ≠ [] ∧ ∃ l, index self !! t = Some l ∧ l ≠ [].

Lemma body_backed res t :
  backed t → body res t = Ok (res ++ [vector_weight self v t]).
Proof.
  unfold backed, body, vector_weight, postings. intros Hb.
  destruct (v !! t) as [n|]; [|done].
  destruct Hb as (Hd & l & -> & Hl); [done|]. simpl.
  unfold idf. destruct l; [done|]. by destruct (documents self).
Qed.

Lemma body_defined res res' t : body res t = Ok res' → backed t.
Proof.
  unfold backed, body, idf. intros Hb [n Hn]. rewrite Hn in Hb.
  destruct (index self !! t) as [l|]; [|done]. simpl in Hb.
  destruct l; [done|]. destruct (documents self); [done|].
  split; [done|]. by exists (n0 :: l).
Qed.

Lemma body_raises res t e : body res t = Raise e → e ≠ IndexError.
Proof.
  unfold body, idf. destruct (v !! t); [|done].
  destruct (index self !! t) as [l|]; simpl; [|by intros [= <-]].
  destruct l; simpl; [by intros [= <-]|].
  destruct (documents self); simpl; [by intros [= <-] | done].
Qed.

Lemma for_each_body_defined l acc ws :
  for_each body l acc = Ok ws → ∀ t, t ∈ l → backed t.
Proof.
  revert acc. induction l as [|a l IH]; intros acc Hok t Ht.
  - by apply elem_of_nil in Ht.
  - simpl in Hok. destruct (body acc a) as [acc'|e] eqn:Ha; [|done].
    apply elem_of_cons in Ht as [->|Ht].
    + by eapply body_defined.
    + by eapply IH.
Qed.

Lemma for_each_body_raises l acc e :
  for_each body l acc = Raise e → e ≠ IndexError.
Proof.
  revert acc. induction l as [|a l IH]; intros acc; [done|].
  simpl. destruct (body acc a) as [acc'|e'] eqn:Ha; simpl.
  - apply IH.
  - intros [= <-]. by eapply body_raises.
Qed.

(** X14: [create_tfidf_list] with a vector returns normally exactly when every
    query term that has an entry in the vector is a key of the index with
    a non-empty posting list and the index holds a document; it then
    returns one weight per query term, [tf * ln (N / df)] or 0.  Whatever
    it raises, it is not [IndexError]. *)
Theorem create_tfidf_list_defined q :
  ((∀ t, t ∈ q.*1 → backed t) →
   create_tfidf_list self q (Some v) = Ok (vector_weight self v <$> q.*1))
  ∧ (∀ ws, create_tfidf_list self q (Some v) = Ok ws →
           length ws = length q ∧ ∀ t, t ∈ q.*1 → backed t)
  ∧ (∀ e, create_tfidf_list self q (Some v) = Raise e → e ≠ IndexError).
Proof.
  assert ((∀ t, t ∈ q.*1 → backed t) →
          create_tfidf_list self q (Some v)
          = Ok (vector_weight self v <$> q.*1)) as Hok.
  { intros Hb. unfold create_tfidf_list. fold body.
    rewrite (for_each_collect body (vector_weight self v)); [done|].
    intros res t Ht. by apply body_backed, Hb. }
  split; [done|]. split.
  - intros ws Hws.
    assert (∀ t, t ∈ q.*1 → backed t) as Hb.
    { unfold create_tfidf_list in Hws. fold body in Hws.
      by eapply for_each_body_defined. }
    split; [|done]. rewrite (Hok Hb) in Hws. injection Hws as <-.
    by rewrite !length_fmap.
  - intros e. unfold create_tfidf_list. fold body.
    apply for_each_body_raises.
Qed.
End Weights.

Lemma create_tfidf_list_defined_witness :
  create_tfidf_list (index_all wines) [("Bordeaux", 1)]
    (Some {[ "Bordeaux" := 1 ]})
  = Ok (vector_weight (index_all wines) {[ "Bordeaux" := 1 ]}
          <$> [("Bordeaux", 1)].*1).
Proof.
  apply (create_tfidf_list_defined (index_all wines) {[ "Bordeaux" := 1 ]}
           [("Bordeaux", 1)]).
  intros t Ht _. apply list_elem_of_singleton in Ht as ->.
  split; [done|]. exists [6; 7; 8]. split; [|done]. vm_compute. reflexivity.
Defined.

(** ** What a search returns *)

Section Marks.
Variable P : string → Prop.
Context `{∀ doc, Decision (P doc)}.

Lemma marks_snoc docs doc :
  marks P (docs ++ [doc])
  = marks P docs ++ (if decide (P doc) then [length docs] else []).
Proof.
  unfold marks. rewrite imap_app, concat_app. simpl.
  by rewrite app_nil_r, Nat.add_0_r.
Qed.

Lemma elem_of_marks docs d :
  d ∈ marks P docs ↔ ∃ doc, docs !! d = Some doc ∧ P doc.
Proof.
  induction docs as [|doc docs IH] using rev_ind.
  - unfold marks. simpl. rewrite elem_of_nil.
    split; [done | by intros (doc & Hd & _)].
  - rewrite marks_snoc, elem_of_app, IH. split.
    + intros [(doc' & Hd & HP) | Hd].
      * exists doc'. split; [|done]. by apply lookup_app_l_Some.
      * destruct (decide (P doc)) as [HP|]; [|by apply elem_of_nil in Hd].
        apply list_elem_of_singleton in Hd as ->.
        exists doc. split; [|done]. by rewrite list_lookup_middle.
    + intros (doc' & Hd & HP).
      apply lookup_snoc_Some in Hd as [[Hlt Hd] | [-> ->]]; [eauto|].
      right. destruct (decide (P doc')); [by left | done].
Qed.

Lemma marks_documents docs :
  NoDup (marks P docs)
  ∧ (λ p, default "" (docs !! p)) <$> marks P docs = filter P docs.
Proof.
  induction docs as [|doc docs [Hnd Hmap]] using rev_ind.
  - split; [apply NoDup_nil_2 | done].
  - rewrite marks_snoc, filter_app, fmap_app.
    assert (∀ p, p ∈ marks P docs → p < length docs) as Hlt.
    { intros p (doc' & Hp & _)%elem_of_marks. by eapply lookup_lt_Some. }
    split.
    + apply NoDup_app. split; [done|]. split.
      * intros p Hp Hp'. apply Hlt in Hp.
        destruct (decide (P doc)); [|by apply elem_of_nil in Hp'].
        apply list_elem_of_singleton in Hp'. lia.
      * destruct (decide (P doc)); [apply NoDup_singleton | apply NoDup_nil_2].
    + f_equal.
      * rewrite <- Hmap. apply list_fmap_ext. intros i p Hp.
        rewrite lookup_app_l; [done|]. apply Hlt.
        by eapply list_elem_of_lookup_2.
      * rewrite filter_cons, filter_nil.
        destruct (decide (P doc)); [|done].
        simpl. by rewrite list_lookup_middle.
Qed.

Lemma documents_at_positions docs ks :
  NoDup ks →
  (∀ p, p ∈ ks ↔ ∃ doc, docs !! p = Some doc ∧ P doc) →
  (λ p, default "" (docs !! p)) <$> ks ≡ₚ filter P docs.
Proof.
  intros Hnd Hks. destruct (marks_documents docs) as [Hnd' <-].
  apply fmap_Permutation, NoDup_Permutation; [done..|].
  intros p. by rewrite Hks, elem_of_marks.
Qed.
End Marks.

(** X15: a search over the index of a corpus returns exactly the documents that
    have a token in common with the query, each of them once; so never
    more results than documents. *)
Theorem search_returns_documents_sharing_a_token docs terms :
  ∃ res,
    vector_space_search (index_all docs) terms = Ok res
    ∧ res.*2 ≡ₚ filter (λ doc, Exists (λ t, t ∈ Tokenizer.split doc)
                                  (Tokenizer.split terms)) docs
    ∧ length res ≤ length docs.
Proof.
  rewrite vector_space_search_index_all. eexists. split; [done|].
  rewrite <- list_fmap_compose.
  assert ((λ p, default "" (docs !! p))
            <$> candidates (index_all docs) (Tokenizer.split terms)
          ≡ₚ filter (λ doc, Exists (λ t, t ∈ Tokenizer.split doc)
                              (Tokenizer.split terms)) docs) as Hperm.
  { apply documents_at_positions.
    - apply NoDup_add_new, NoDup_nil_2.
    - intros p. rewrite elem_of_candidates. split.
      + intros (t & Ht & Hp). rewrite postings_index_all in Hp.
        apply elem_of_all_postings in Hp as (doc & Hd & Ho).
        exists doc. split; [done|]. apply Exists_exists.
        exists t. split; [done | by apply occ_pos].
      + intros (doc & Hd & (t & Ht & Htd)%Exists_exists).
        exists t. split; [done|]. rewrite postings_index_all.
        apply elem_of_all_postings. exists doc.
        split; [done | by apply occ_pos]. }
  split; [done|].
  rewrite length_fmap, <- (length_fmap (λ p, default "" (docs !! p))).
  rewrite Hperm. apply length_filter.
Qed.

Lemma count_from_skipped sub skip s :
  String.length s ≤ skip → count_from sub skip s = 0.
Proof.
  revert skip. induction s as [|c s IH]; intros skip Hs; [done|].
  destruct skip as [|k]; simpl in *; [lia|]. apply IH. lia.
Qed.

Lemma str_count_self w : w ≠ "" → str_count w w = 1.
Proof.
  intros Hne. destruct w as [|c w]; [done|].
  unfold str_count. cbn [count_from].
  rewrite <- (append_nil_r (String c w)) at 2.
  rewrite prefix_append. f_equal. apply count_from_skipped. simpl. lia.
Qed.

Lemma create_tf_dictionary_word w :
  clean w = true → w ≠ "" → create_tf_dictionary w = [(w, 1)].
Proof.
  intros Hw Hne. unfold create_tf_dictionary, Tokenizer.split.
  rewrite split_from_word; [|lia | done]. simpl.
  by rewrite str_count_self.
Qed.

(** X16: a query of one word, without white space and commas, returns the
    documents that contain the word, each with the score
    [tf * ln (N / df)]: the count of the word in the document times the
    logarithm of the number of documents over the number of postings of
    the word. *)
Theorem search_one_word docs w :
  clean w = true → w ≠ "" →
  ∃ res,
    vector_space_search (index_all docs) w = Ok res
    ∧ ∀ r, r ∈ res →
        ∃ d doc,
          docs !! d = Some doc ∧ w ∈ Tokenizer.split doc ∧ r.2 = doc
          ∧ r.1 = (INR (occ w (Tokenizer.split doc))
                   * ln (INR (length docs)
                         / INR (length (postings (index_all docs) w))))%R.
Proof.
  intros Hw Hne. rewrite vector_space_search_index_all.
  rewrite create_tf_dictionary_word by done.
  unfold Tokenizer.split at 1. rewrite split_from_word; [|lia | done].
  eexists. split; [done|].
  intros r (p & -> & Hp)%list_elem_of_fmap.
  apply elem_of_candidates in Hp as (t & ->%list_elem_of_singleton & Hp).
  pose proof Hp as Hp'. rewrite postings_index_all in Hp'.
  apply elem_of_all_postings in Hp' as (doc & Hd & Ho).
  exists p, doc. split; [done|]. split; [by apply occ_pos|].
  split; [simpl; by rewrite Hd|].
  cbn [fst]. unfold score, doc_weight. simpl.
  rewrite index_all_vectors, Hd, index_all_documents. simpl.
  destruct (occ w (Tokenizer.split doc)) as [|n] eqn:E; [done|].
  simpl bump_count. cbv beta iota. set (x := ln _). set (y := INR (S n)). lra.
Qed.

Lemma search_one_word_witness :
  ∃ res,
    vector_space_search (index_all wines) "Margaux" = Ok res
    ∧ ∀ r, r ∈ res →
        ∃ d doc,
          wines !! d = Some doc ∧ "Margaux" ∈ Tokenizer.split doc ∧ r.2 = doc
          ∧ r.1 = (INR (occ "Margaux" (Tokenizer.split doc))
                   * ln (INR (length wines)
                         / INR (length (postings (index_all wines)
                                          "Margaux"))))%R.
Proof. apply (search_one_word wines "Margaux"); done. Defined.
